(** * joncalhoun/migrate: the sqlx migrator (sqlx.go)

    A shallow embedding of the migrator and of the part of [database/sql]
    it drives, followed by the properties of the migrator.

    The database is a store (the [migrations] bookkeeping table plus the
    user's schema), a set of open transactions each holding its own view
    of the store, and a script of injected driver failures.  Every driver
    call is recorded in a trace, the way a recording test driver would. *)

From stdpp Require Import base gmap sets list strings.

(** ** Go values *)

(** The [error] values the migrator handles.  [ErrNoRows] and [ErrTxDone]
    are the sentinels of [database/sql]; [Errorf p e] is
    [fmt.Errorf(p + ": %w", e)]. *)
Inductive error : Type :=
  | ErrNoRows
  | ErrTxDone
  | DriverError (msg : string)
  | PathError (op path : string)
  | RuntimeError (msg : string)
  | Errorf (prefix : string) (cause : error).

#[global] Instance error_eq_dec : EqDecision error.
Proof. solve_decision. Defined.

(** A Go call either returns or panics with a value. *)
Inductive res (A : Type) : Type :=
  | Val (a : A)
  | Panic (v : error).
Arguments Val {A} a.
Arguments Panic {A} v.

(** The line feed that ends every [Printf] format of the migrator. *)
Definition nl : string :=
  String (Ascii.Ascii false true false true false false false false)
         EmptyString.

Definition nilDeref : error :=
  RuntimeError "invalid memory address or nil pointer dereference".
Definition indexOutOfRange : error := RuntimeError "index out of range".
Definition badConn : error := DriverError "driver: bad connection".

(** ** The database *)

(** [tracker] is the [migrations] table: [None] while the table does not
    exist, otherwise its set of ids ([id] is the primary key).  [schema]
    is everything else the database holds. *)
Record Store (U : Type) : Type := mkStore {
  tracker : option (gset string);
  schema : U
}.
Arguments mkStore {U} _ _.
Arguments tracker {U} _.
Arguments schema {U} _.

Definition Tx : Type := nat.

Inductive Event : Type :=
  | EvDbExec (q : string) (args : list string)
  | EvDbGet (q : string) (args : list string)
  | EvBegin
  | EvTxExec (tx : Tx) (q : string) (args : list string)
  | EvCommit (tx : Tx)
  | EvRollback (tx : Tx)
  | EvApply (id : string)
  | EvReverse (id : string).

#[global] Instance Event_eq_dec : EqDecision Event.
Proof. solve_decision. Defined.

(** [committed] is what every connection sees; [txs] maps a transaction
    handle to its view ([None] once committed or rolled back); [faults]
    scripts the driver: each driver call takes the next entry and fails
    with [badConn] when it is [true]; [out] is what the [Printf] hook has
    received. *)
Record World (U : Type) : Type := mkWorld {
  committed : Store U;
  txs : list (option (Store U));
  faults : list bool;
  trace : list Event;
  out : list string
}.
Arguments mkWorld {U} _ _ _ _ _.
Arguments committed {U} _.
Arguments txs {U} _.
Arguments faults {U} _.
Arguments trace {U} _.
Arguments out {U} _.

(** What the database does with a statement it is sent: the new store, or
    the error.  A failed statement changes nothing. *)
Definition Engine (U : Type) : Type :=
  string → list string → Store U → Store U + error.

(** [func(tx *sqlx.Tx) error]: what a step does with the transaction it is
    handed.  It executes statements on it, looks at their errors, and
    returns an error or nil, or panics. *)
Inductive TxFunc : Type :=
  | Ret (err : option error)
  | Exec (q : string) (args : list string) (k : option error → TxFunc)
  | Crash (v : error).

Definition createTableSQL : string :=
  "CREATE TABLE IF NOT EXISTS migrations (id TEXT PRIMARY KEY )".
Definition selectSQL : string := "SELECT id FROM migrations WHERE id=$1".
Definition insertSQL : string := "INSERT INTO migrations (id) VALUES ($1)".
Definition deleteSQL : string := "DELETE FROM migrations WHERE id=$1".

Section Driver.
Context {U : Type} (engine : Engine U).

Definition M (A : Type) : Type := World U → World U * res A.

Definition ret {A} (a : A) : M A := λ w, (w, Val a).
Definition panic {A} (v : error) : M A := λ w, (w, Panic v).
Definition bind {A B} (c : M A) (k : A → M B) : M B :=
  λ w, match c w with
       | (w1, Val a) => k a w1
       | (w1, Panic v) => (w1, Panic v)
       end.

Definition set_committed (st : Store U) (w : World U) : World U :=
  mkWorld st (txs w) (faults w) (trace w) (out w).
Definition set_txs (l : list (option (Store U))) (w : World U) : World U :=
  mkWorld (committed w) l (faults w) (trace w) (out w).
Definition set_faults (fs : list bool) (w : World U) : World U :=
  mkWorld (committed w) (txs w) fs (trace w) (out w).
Definition emit (ev : Event) (w : World U) : World U :=
  mkWorld (committed w) (txs w) (faults w) (trace w ++ [ev]) (out w).
Definition set_out (o : list string) (w : World U) : World U :=
  mkWorld (committed w) (txs w) (faults w) (trace w) o.

Definition next_fault (w : World U) : bool * World U :=
  match faults w with
  | [] => (false, w)
  | b :: fs => (b, set_faults fs w)
  end.

(** The statements on the [migrations] table, and the engine for every
    other statement. *)
Definition exec (q : string) (args : list string) (st : Store U)
  : Store U + error :=
  if decide (q = createTableSQL) then
    match tracker st with
    | Some _ => inl st
    | None => inl (mkStore (Some ∅) (schema st))
    end
  else if decide (q = insertSQL) then
    match args, tracker st with
    | [id], Some rows =>
        if decide (id ∈ rows)
        then inr (DriverError "UNIQUE constraint failed: migrations.id")
        else inl (mkStore (Some ({[id]} ∪ rows)) (schema st))
    | [_], None => inr (DriverError "no such table: migrations")
    | _, _ => inr (DriverError "wrong number of arguments")
    end
  else if decide (q = deleteSQL) then
    match args, tracker st with
    | [id], Some rows => inl (mkStore (Some (rows ∖ {[id]})) (schema st))
    | [_], None => inr (DriverError "no such table: migrations")
    | _, _ => inr (DriverError "wrong number of arguments")
    end
  else engine q args st.

(** The one query the migrator sends: nil when the row is there,
    [ErrNoRows] when it is not. *)
Definition select (q : string) (args : list string) (st : Store U)
  : option error :=
  if decide (q = selectSQL) then
    match args, tracker st with
    | [id], Some rows => if decide (id ∈ rows) then None else Some ErrNoRows
    | [_], None => Some (DriverError "no such table: migrations")
    | _, _ => Some (DriverError "wrong number of arguments")
    end
  else Some (DriverError "unsupported query").

(** A statement committed outside a transaction becomes visible in the
    open ones (READ COMMITTED). *)
Definition refresh (q : string) (args : list string)
    (v : option (Store U)) : option (Store U) :=
  match v with
  | None => None
  | Some sv => match exec q args sv with
               | inl sv' => Some sv'
               | inr _ => Some sv
               end
  end.

(** [db.Exec]: runs in its own implicit transaction. *)
Definition db_Exec (q : string) (args : list string) : M (option error) :=
  λ w, let w := emit (EvDbExec q args) w in
       let '(b, w) := next_fault w in
       if b then (w, Val (Some badConn))
       else match exec q args (committed w) with
            | inl st =>
                (set_txs (refresh q args <$> txs w) (set_committed st w),
                 Val None)
            | inr e => (w, Val (Some e))
            end.

(** [db.Get(&found, q, args...)]. *)
Definition db_Get (q : string) (args : list string) : M (option error) :=
  λ w, let w := emit (EvDbGet q args) w in
       let '(b, w) := next_fault w in
       if b then (w, Val (Some badConn))
       else (w, Val (select q args (committed w))).

(** [db.Beginx]: a new transaction whose view starts as the committed
    store. *)
Definition db_Beginx : M (Tx + error) :=
  λ w, let w := emit EvBegin w in
       let '(b, w) := next_fault w in
       if b then (w, Val (inr badConn))
       else (set_txs (txs w ++ [Some (committed w)]) w,
             Val (inl (length (txs w)))).

Definition view (tx : Tx) (w : World U) : option (Store U) :=
  mjoin (txs w !! tx).

Definition close (tx : Tx) (w : World U) : World U :=
  set_txs (<[tx := None]> (txs w)) w.

(** [tx.Exec] *)
Definition tx_Exec (tx : Tx) (q : string) (args : list string)
  : M (option error) :=
  λ w, let w := emit (EvTxExec tx q args) w in
       match view tx w with
       | None => (w, Val (Some ErrTxDone))
       | Some v =>
           let '(b, w) := next_fault w in
           if b then (w, Val (Some badConn))
           else match exec q args v with
                | inl v' => (set_txs (<[tx := Some v']> (txs w)) w, Val None)
                | inr e => (w, Val (Some e))
                end
       end.

(** [tx.Commit]: the view becomes the committed store; a failed commit
    ends the transaction without publishing anything. *)
Definition tx_Commit (tx : Tx) : M (option error) :=
  λ w, let w := emit (EvCommit tx) w in
       match view tx w with
       | None => (w, Val (Some ErrTxDone))
       | Some v =>
           let '(b, w) := next_fault w in
           if b then (close tx w, Val (Some badConn))
           else (close tx (set_committed v w), Val None)
       end.

(** [tx.Rollback] *)
Definition tx_Rollback (tx : Tx) : M (option error) :=
  λ w, let w := emit (EvRollback tx) w in
       match view tx w with
       | None => (w, Val (Some ErrTxDone))
       | Some _ => (close tx w, Val None)
       end.

(** Calling a [func(tx *sqlx.Tx) error] value on a transaction. *)
Fixpoint run (f : TxFunc) (tx : Tx) : M (option error) :=
  match f with
  | Ret err => ret err
  | Crash v => panic v
  | Exec q args k => bind (tx_Exec tx q args) (λ err, run (k err) tx)
  end.

(** Calling a function-typed field: a nil func panics. *)
Definition call (f : option TxFunc) (tx : Tx) : M (option error) :=
  match f with
  | None => panic nilDeref
  | Some f => run f tx
  end.
End Driver.

Notation "'let*' x := c 'in' k" := (bind c (λ x, k))
  (at level 10, x name, c at level 100, k at level 200, only parsing).

(** ** The migrator (current variant) *)

(** [SqlxMigration]: a unique id plus what to do in the transaction.  A
    field that holds no function is [None] (Go's nil). *)
Record SqlxMigration : Type := mkSqlxMigration {
  ID : string;
  Migrate : option TxFunc;
  Rollback : option TxFunc
}.

(** [Sqlx]: the registry and the reporting hook.  The hook is a sink: it
    receives the formatted line and what it has received so far. *)
Record Sqlx : Type := mkSqlx {
  Migrations : list SqlxMigration;
  Printf : option (string → list string → list string)
}.

Section Migrator.
Context {U : Type} (engine : Engine U).

Abbreviation M := (@M U).

(** [fmt.Printf] appends to standard output. *)
Definition fmt_Printf (line : string) (o : list string) : list string :=
  o ++ [line].

Definition printf (s : Sqlx) (line : string) : M unit :=
  λ w, let printf := match Printf s with
                     | None => fmt_Printf
                     | Some f => f
                     end in
       (set_out (printf line (out w)) w, Val tt).

Definition createMigrationTable (s : Sqlx) : M (option error) :=
  let* err := db_Exec engine createTableSQL [] in
  match err with
  | Some err => ret (Some (Errorf "creating migrations table" err))
  | None => ret None
  end.

Definition runMigration (s : Sqlx) (m : SqlxMigration) : M (option error) :=
  let errorf := Errorf "running migration" in
  let* r := db_Beginx in
  match r with
  | inr err => ret (Some (errorf err))
  | inl tx =>
      let* err := tx_Exec engine tx insertSQL [ID m] in
      match err with
      | Some err => let* _ := tx_Rollback tx in ret (Some (errorf err))
      | None =>
          let* err := (λ w, call engine (Migrate m) tx (emit (EvApply (ID m)) w)) in
          match err with
          | Some err => let* _ := tx_Rollback tx in ret (Some (errorf err))
          | None =>
              let* err := tx_Commit tx in
              match err with
              | Some err => ret (Some (errorf err))
              | None => ret None
              end
          end
      end
  end.

Definition runRollback (s : Sqlx) (m : SqlxMigration) : M (option error) :=
  let errorf := Errorf "running rollback" in
  let* r := db_Beginx in
  match r with
  | inr err => ret (Some (errorf err))
  | inl tx =>
      let* err := tx_Exec engine tx deleteSQL [ID m] in
      match err with
      | Some err => let* _ := tx_Rollback tx in ret (Some (errorf err))
      | None =>
          let* err := (λ w, call engine (Rollback m) tx (emit (EvReverse (ID m)) w)) in
          match err with
          | Some err => let* _ := tx_Rollback tx in ret (Some (errorf err))
          | None =>
              let* err := tx_Commit tx in
              match err with
              | Some err => ret (Some (errorf err))
              | None => ret None
              end
          end
      end
  end.

(** The body of [for _, m := range s.Migrations]. *)
Fixpoint migrateLoop (s : Sqlx) (ms : list SqlxMigration)
  : M (option error) :=
  match ms with
  | [] => ret None
  | m :: rest =>
      let* err := db_Get selectSQL [ID m] in
      match err with
      | Some ErrNoRows =>
          let* _ := printf s ("Running migration: " +:+ ID m +:+ nl) in
          let* err := runMigration s m in
          match err with
          | Some err => ret (Some err)
          | None => migrateLoop s rest
          end
      | None =>
          let* _ := printf s ("Skipping migration: " +:+ ID m +:+ nl) in
          migrateLoop s rest
      | Some err => ret (Some (Errorf "looking up migration by id" err))
      end
  end.

(** The method [Migrate] of [Sqlx]. *)
Definition Sqlx_Migrate (s : Sqlx) : M (option error) :=
  let* _ := printf s ("Creating/checking migrations table..." +:+ nl) in
  let* err := createMigrationTable s in
  match err with
  | Some err => ret (Some err)
  | None => migrateLoop s (Migrations s)
  end.

(** The body of [for i := len(s.Migrations) - 1; i >= 0; i--], entered
    with [n = i + 1]. *)
Fixpoint rollbackLoop (s : Sqlx) (n : nat) : M (option error) :=
  match n with
  | 0 => ret None
  | S i =>
      match Migrations s !! i with
      | None => panic indexOutOfRange
      | Some m =>
          match Rollback m with
          | None =>
              let* _ := printf s ("Rollback not provided: " +:+ ID m +:+ nl) in
              rollbackLoop s i
          | Some _ =>
              let* err := db_Get selectSQL [ID m] in
              match err with
              | Some ErrNoRows =>
                  let* _ := printf s ("Skipping rollback: " +:+ ID m +:+ nl) in
                  rollbackLoop s i
              | None =>
                  let* _ := printf s ("Running rollback: " +:+ ID m +:+ nl) in
                  let* err := runRollback s m in
                  match err with
                  | Some err => ret (Some err)
                  | None => rollbackLoop s i
                  end
              | Some err =>
                  ret (Some (Errorf "looking up rollback by id" err))
              end
          end
      end
  end.

(** The method [Rollback] of [Sqlx]. *)
Definition Sqlx_Rollback (s : Sqlx) : M (option error) :=
  let* _ := printf s ("Creating/checking migrations table..." +:+ nl) in
  let* err := createMigrationTable s in
  match err with
  | Some err => ret (Some err)
  | None => rollbackLoop s (length (Migrations s))
  end.
End Migrator.

(** ** Step builders (current variant) *)

Definition queryFn (query : string) : option TxFunc :=
  if decide (query = "") then None
  else Some (Exec query [] Ret).

Definition SqlxQueryMigration (id upQuery downQuery : string)
  : SqlxMigration :=
  {| ID := id; Migrate := queryFn upQuery; Rollback := queryFn downQuery |}.

(** The file system [SqlxFileMigration] reads: a file can be opened when
    it has an entry, and read when the entry is [Readable].  [opened]
    records every path handed to [os.Open]. *)
Inductive file : Type :=
  | Readable (content : string)
  | Unreadable (err : error).

Record FS : Type := mkFS {
  files : gmap string file;
  opened : list string
}.

Definition os_Open (name : string) (fs : FS) : FS * (file + error) :=
  let fs' := mkFS (files fs) (opened fs ++ [name]) in
  match files fs !! name with
  | Some f => (fs', inl f)
  | None => (fs', inr (PathError "open" name))
  end.

Definition ioutil_ReadAll (f : file) : string + error :=
  match f with
  | Readable content => inl content
  | Unreadable err => inr err
  end.

Definition fileFn (filename : string) (fs : FS) : FS * res (option TxFunc) :=
  if decide (filename = "") then (fs, Val None)
  else
    let '(fs, r) := os_Open filename fs in
    match r with
    | inr err => (fs, Panic err)
    | inl f =>
        match ioutil_ReadAll f with
        | inr err => (fs, Panic err)
        | inl fileBytes => (fs, Val (Some (Exec fileBytes [] Ret)))
        end
    end.

Definition SqlxFileMigration (id upFile downFile : string) (fs : FS)
  : FS * res SqlxMigration :=
  match fileFn upFile fs with
  | (fs, Panic v) => (fs, Panic v)
  | (fs, Val up) =>
      match fileFn downFile fs with
      | (fs, Panic v) => (fs, Panic v)
      | (fs, Val down) =>
          (fs, Val {| ID := id; Migrate := up; Rollback := down |})
      end
  end.

(** ** The migrator (earlier variant)

    The second copy of the package in the repository: no rollback, and
    [runMigration] sends the bookkeeping insert through [db.Exec]. *)
Module Old.
Record SqlxMigration : Type := mkSqlxMigration {
  ID : string;
  Migrate : option TxFunc
}.

Record Sqlx : Type := mkSqlx {
  Migrations : list SqlxMigration;
  Printf : option (string → list string → list string)
}.

Section Migrator.
Context {U : Type} (engine : Engine U).

Abbreviation M := (@M U).

Definition printf (s : Sqlx) (line : string) : M unit :=
  λ w, let printf := match Printf s with
                     | None => fmt_Printf
                     | Some f => f
                     end in
       (set_out (printf line (out w)) w, Val tt).

Definition createMigrationTable (s : Sqlx) : M (option error) :=
  let* err := db_Exec engine createTableSQL [] in
  match err with
  | Some err => ret (Some (Errorf "creating migrations table" err))
  | None => ret None
  end.

Definition runMigration (s : Sqlx) (m : SqlxMigration)
  : M (option error) :=
  let errorf := Errorf "running migration" in
  let* r := db_Beginx in
  match r with
  | inr err => ret (Some (errorf err))
  | inl tx =>
      let* err := db_Exec engine insertSQL [ID m] in
      match err with
      | Some err => let* _ := tx_Rollback tx in ret (Some (errorf err))
      | None =>
          let* err := (λ w, call engine (Migrate m) tx (emit (EvApply (ID m)) w)) in
          match err with
          | Some err => let* _ := tx_Rollback tx in ret (Some (errorf err))
          | None =>
              let* err := tx_Commit tx in
              match err with
              | Some err => ret (Some (errorf err))
              | None => ret None
              end
          end
      end
  end.

Fixpoint migrateLoop (s : Sqlx) (ms : list SqlxMigration)
  : M (option error) :=
  match ms with
  | [] => ret None
  | m :: rest =>
      let* err := db_Get selectSQL [ID m] in
      match err with
      | Some ErrNoRows =>
          let* _ := printf s ("Running migration: " +:+ ID m +:+ nl) in
          let* err := runMigration s m in
          match err with
          | Some err => ret (Some err)
          | None => migrateLoop s rest
          end
      | None =>
          let* _ := printf s ("Skipping migration: " +:+ ID m +:+ nl) in
          migrateLoop s rest
      | Some err => ret (Some (Errorf "looking up migration by id" err))
      end
  end.

Definition Sqlx_Migrate (s : Sqlx) : M (option error) :=
  let* _ := printf s ("Creating/checking migrations table..." +:+ nl) in
  let* err := createMigrationTable s in
  match err with
  | Some err => ret (Some err)
  | None => migrateLoop s (Migrations s)
  end.
End Migrator.

Definition SqlxQueryMigration (id query : string) : SqlxMigration :=
  {| ID := id; Migrate := Some (Exec query [] Ret) |}.
End Old.

(** The step of the earlier variant that a step of the current one
    corresponds to: same id, same apply action. *)
Definition as_old (m : SqlxMigration) : Old.SqlxMigration :=
  {| Old.ID := ID m; Old.Migrate := Migrate m |}.

Definition as_old_sqlx (s : Sqlx) : Old.Sqlx :=
  {| Old.Migrations := as_old <$> Migrations s; Old.Printf := Printf s |}.

(** ** Vocabulary of the properties *)

(** The events recorded between two worlds. *)
Definition since {U} (w w' : World U) : list Event :=
  drop (length (trace w)) (trace w').

(** The ids looked up in the tracker, in the order of the lookups. *)
Definition lookups (evs : list Event) : list string :=
  evs ≫= (λ ev, match ev with EvDbGet _ args => args | _ => [] end).

(** The ids whose apply action was invoked, in order. *)
Definition applies (evs : list Event) : list string :=
  evs ≫= (λ ev, match ev with EvApply id => [id] | _ => [] end).

(** The transactions committed, in order. *)
Definition commits (evs : list Event) : list Tx :=
  evs ≫= (λ ev, match ev with EvCommit tx => [tx] | _ => [] end).

(** A step is applied when the tracker has its row. *)
Definition applied {U} (st : Store U) (id : string) : Prop :=
  match tracker st with
  | Some rows => id ∈ rows
  | None => False
  end.

#[global] Instance applied_dec {U} (st : Store U) id : Decision (applied st id).
Proof. unfold applied. destruct (tracker st); apply _. Defined.

(** The steps of [ms] that are not applied in [st], in order. *)
Definition pending {U} (st : Store U) (ms : list SqlxMigration)
  : list SqlxMigration :=
  filter (λ m, ¬ applied st (ID m)) ms.

(** What a lookup answers in world [w]: the injected failure if one is
    due, otherwise what the store says. *)
Definition lookup_error {U} (q : string) (args : list string) (w : World U)
  : option error :=
  match faults w with
  | true :: _ => Some badConn
  | _ => select q args (committed w)
  end.

(** [w1] differs from [w] by what was printed only. *)
Definition log_only {U} (w w1 : World U) : Prop :=
  committed w1 = committed w ∧ txs w1 = txs w ∧
  faults w1 = faults w ∧ trace w1 = trace w.

(** What the answer of a lookup says about the tracker. *)
Definition lookup_sound {U} (w : World U) (id : string)
    (r : res (option error)) : Prop :=
  match r with
  | Val None => applied (committed w) id
  | Val (Some ErrNoRows) =>
      is_Some (tracker (committed w)) ∧ ¬ applied (committed w) id
  | _ => True
  end.

(** A step that can be rolled back. *)
Definition has_reverse (m : SqlxMigration) : Prop := is_Some (Rollback m).

(** A file that [SqlxFileMigration] can open and read, and the error it
    meets otherwise. *)
Definition readable (fs : FS) (path : string) : Prop :=
  ∃ content, files fs !! path = Some (Readable content).

Definition read_error (fs : FS) (path : string) (v : error) : Prop :=
  files fs !! path = None ∧ v = PathError "open" path ∨
  files fs !! path = Some (Unreadable v).

(** The paths [fileFn] hands to [os.Open]. *)
Definition touched (path : string) : list string :=
  if decide (path = "") then [] else [path].

Section Effects.
Context {U : Type} (engine : Engine U).

(** What one statement sent on a transaction does to the view of that
    transaction and to the fault script. *)
Definition stmt_effect (q : string) (args : list string)
    (fs : list bool) (v : Store U) : Store U * list bool * option error :=
  match fs with
  | true :: fs' => (v, fs', Some badConn)
  | _ => match exec engine q args v with
         | inl v' => (v', tail fs, None)
         | inr e => (v, tail fs, Some e)
         end
  end.

(** What a [TxFunc] does to the view of the transaction it is handed:
    the final view, the remaining fault script, the statements it sent
    and what it returned. *)
Fixpoint action_effect (f : TxFunc) (fs : list bool) (v : Store U)
  : Store U * list bool * list (string * list string) * res (option error) :=
  match f with
  | Ret err => (v, fs, [], Val err)
  | Crash x => (v, fs, [], Panic x)
  | Exec q args k =>
      let '(v1, fs1, err) := stmt_effect q args fs v in
      let '(v2, fs2, stmts, r) := action_effect (k err) fs1 v1 in
      (v2, fs2, (q, args) :: stmts, r)
  end.

(** A statement that leaves the [migrations] table alone, and an action
    that only sends such statements. *)
Definition keeps_tracker (q : string) (args : list string) : Prop :=
  ∀ st st', exec engine q args st = inl st' → tracker st' = tracker st.

Inductive tracker_safe : TxFunc → Prop :=
  | safe_Ret err : tracker_safe (Ret err)
  | safe_Crash v : tracker_safe (Crash v)
  | safe_Exec q args k :
      keeps_tracker q args →
      (∀ err, tracker_safe (k err)) →
      tracker_safe (Exec q args k).

Definition step_safe (m : SqlxMigration) : Prop :=
  ∀ f, Migrate m = Some f → tracker_safe f.

(** Section 4.1 of the specification, sentence by sentence: the
    entries are visited in the order of the list; [apply_in_order s ms w o]
    holds when visiting [ms] from [w] ends in [o]. *)
Inductive apply_in_order (s : Sqlx)
  : list SqlxMigration → World U → World U * res (option error) → Prop :=
  | apply_done w :
      apply_in_order s [] w (w, Val None)
  | apply_found m ms w w1 o :
      (* found: skip, log only, continue *)
      db_Get selectSQL [ID m] w = (w1, Val None) →
      apply_in_order s ms
        (printf s ("Skipping migration: " +:+ ID m +:+ nl) w1).1 o →
      apply_in_order s (m :: ms) w o
  | apply_absent_ok m ms w w1 w2 o :
      (* not found: run the step; on success continue *)
      db_Get selectSQL [ID m] w = (w1, Val (Some ErrNoRows)) →
      runMigration engine s m
        (printf s ("Running migration: " +:+ ID m +:+ nl) w1).1
        = (w2, Val None) →
      apply_in_order s ms w2 o →
      apply_in_order s (m :: ms) w o
  | apply_absent_failed m ms w w1 w2 r :
      (* not found: run the step; on failure abort with that failure *)
      db_Get selectSQL [ID m] w = (w1, Val (Some ErrNoRows)) →
      runMigration engine s m
        (printf s ("Running migration: " +:+ ID m +:+ nl) w1).1
        = (w2, r) →
      r ≠ Val None →
      apply_in_order s (m :: ms) w (w2, r)
  | apply_lookup_error m ms w w1 err :
      (* any other lookup error: abort, report *)
      db_Get selectSQL [ID m] w = (w1, Val (Some err)) →
      err ≠ ErrNoRows →
      apply_in_order s (m :: ms) w
        (w1, Val (Some (Errorf "looking up migration by id" err))).

(** Section 4.2 of the specification: [rollback_in_order s ms w o] holds
    when visiting [ms] (already in visiting order) from [w] ends in [o]. *)
Inductive rollback_in_order (s : Sqlx)
  : list SqlxMigration → World U → World U * res (option error) → Prop :=
  | rollback_done w :
      rollback_in_order s [] w (w, Val None)
  | rollback_no_reverse m ms w o :
      (* no reverse action: notice, no lookup, continue *)
      Rollback m = None →
      rollback_in_order s ms
        (printf s ("Rollback not provided: " +:+ ID m +:+ nl) w).1 o →
      rollback_in_order s (m :: ms) w o
  | rollback_absent m ms w w1 o :
      (* not found: skip, continue *)
      is_Some (Rollback m) →
      db_Get selectSQL [ID m] w = (w1, Val (Some ErrNoRows)) →
      rollback_in_order s ms
        (printf s ("Skipping rollback: " +:+ ID m +:+ nl) w1).1 o →
      rollback_in_order s (m :: ms) w o
  | rollback_found_ok m ms w w1 w2 o :
      (* found: run the reverse executor; on success continue *)
      is_Some (Rollback m) →
      db_Get selectSQL [ID m] w = (w1, Val None) →
      runRollback engine s m
        (printf s ("Running rollback: " +:+ ID m +:+ nl) w1).1
        = (w2, Val None) →
      rollback_in_order s ms w2 o →
      rollback_in_order s (m :: ms) w o
  | rollback_found_failed m ms w w1 w2 r :
      (* found: run the reverse executor; first failure aborts *)
      is_Some (Rollback m) →
      db_Get selectSQL [ID m] w = (w1, Val None) →
      runRollback engine s m
        (printf s ("Running rollback: " +:+ ID m +:+ nl) w1).1
        = (w2, r) →
      r ≠ Val None →
      rollback_in_order s (m :: ms) w (w2, r)
  | rollback_lookup_error m ms w w1 err :
      (* lookup error: abort the remaining sequence *)
      is_Some (Rollback m) →
      db_Get selectSQL [ID m] w = (w1, Val (Some err)) →
      err ≠ ErrNoRows →
      rollback_in_order s (m :: ms) w
        (w1, Val (Some (Errorf "looking up rollback by id" err))).
End Effects.

(** ** The two executors as one transaction script

    [runMigration] and [runRollback] differ in the bookkeeping statement,
    the action they call and the prefix of their errors only. *)
Section Transaction.
Context {U : Type} (engine : Engine U).

Definition in_transaction (stmt : string) (ev : Event) (prefix id : string)
    (f : option TxFunc) : @M U (option error) :=
  let errorf := Errorf prefix in
  let* r := db_Beginx in
  match r with
  | inr err => ret (Some (errorf err))
  | inl tx =>
      let* err := tx_Exec engine tx stmt [id] in
      match err with
      | Some err => let* _ := tx_Rollback tx in ret (Some (errorf err))
      | None =>
          let* err := (λ w, call engine f tx (emit ev w)) in
          match err with
          | Some err => let* _ := tx_Rollback tx in ret (Some (errorf err))
          | None =>
              let* err := tx_Commit tx in
              match err with
              | Some err => ret (Some (errorf err))
              | None => ret None
              end
          end
      end
  end.

Definition tx_events (tx : Tx) (stmts : list (string * list string))
  : list Event :=
  (λ s, EvTxExec tx s.1 s.2) <$> stmts.

(** The world and the result [in_transaction] ends in, read off the
    fault script, the bookkeeping statement and the effect of the
    action. *)
Definition transaction_result (stmt : string) (ev : Event)
    (prefix id : string) (f : option TxFunc) (w : World U)
  : World U * res (option error) :=
  let tx := length (txs w) in
  let errorf := Errorf prefix in
  match faults w with
  | true :: fs =>
      (mkWorld (committed w) (txs w) fs (trace w ++ [EvBegin]) (out w),
       Val (Some (errorf badConn)))
  | fs0 =>
      let '(v1, fs1, err) := stmt_effect engine stmt [id] (tail fs0) (committed w) in
      let begun := [EvBegin; EvTxExec tx stmt [id]] in
      match err with
      | Some e =>
          (mkWorld (committed w) (txs w ++ [None]) fs1
             (trace w ++ begun ++ [EvRollback tx]) (out w),
           Val (Some (errorf e)))
      | None =>
          match f with
          | None =>
              (mkWorld (committed w) (txs w ++ [Some v1]) fs1
                 (trace w ++ begun ++ [ev]) (out w),
               Panic nilDeref)
          | Some g =>
              let '(v2, fs2, stmts, r) := action_effect engine g fs1 v1 in
              let called := begun ++ ev :: tx_events tx stmts in
              match r with
              | Panic x =>
                  (mkWorld (committed w) (txs w ++ [Some v2]) fs2
                     (trace w ++ called) (out w),
                   Panic x)
              | Val (Some e) =>
                  (mkWorld (committed w) (txs w ++ [None]) fs2
                     (trace w ++ called ++ [EvRollback tx]) (out w),
                   Val (Some (errorf e)))
              | Val None =>
                  match fs2 with
                  | true :: fs3 =>
                      (mkWorld (committed w) (txs w ++ [None]) fs3
                         (trace w ++ called ++ [EvCommit tx]) (out w),
                       Val (Some (errorf badConn)))
                  | _ =>
                      (mkWorld v2 (txs w ++ [None]) (tail fs2)
                         (trace w ++ called ++ [EvCommit tx]) (out w),
                       Val None)
                  end
              end
          end
      end
  end.
End Transaction.

(** ** A concrete database

    The scenario of the specification: a schema is the set of its table
    names, and the engine knows how to create and drop [courses] and
    [users]. *)
Module Scenario.
Definition createCourses : string :=
  "CREATE TABLE courses(id INTEGER PRIMARY KEY, name TEXT)".
Definition dropCourses : string := "DROP TABLE courses".
Definition createUsers : string :=
  "CREATE TABLE users(id INTEGER PRIMARY KEY, email TEXT)".
Definition dropUsers : string := "DROP TABLE users".

Definition create (t : string) (st : Store (gset string))
  : Store (gset string) + error :=
  if decide (t ∈ schema st)
  then inr (DriverError ("table " +:+ t +:+ " already exists"))
  else inl (mkStore (tracker st) ({[t]} ∪ schema st)).

Definition drop_table (t : string) (st : Store (gset string))
  : Store (gset string) + error :=
  if decide (t ∈ schema st)
  then inl (mkStore (tracker st) (schema st ∖ {[t]}))
  else inr (DriverError ("no such table: " +:+ t)).

Definition engine : Engine (gset string) :=
  λ q args st,
    if decide (q = createCourses) then create "courses" st
    else if decide (q = dropCourses) then drop_table "courses" st
    else if decide (q = createUsers) then create "users" st
    else if decide (q = dropUsers) then drop_table "users" st
    else inr (DriverError "syntax error").

(** An empty database, with the given fault script. *)
Definition fresh (fs : list bool) : World (gset string) :=
  mkWorld (mkStore None ∅) [] fs [] [].

(** A database that has the (empty) tracker table already. *)
Definition ready (fs : list bool) : World (gset string) :=
  mkWorld (mkStore (Some ∅) ∅) [] fs [] [].

Definition courses : SqlxMigration :=
  SqlxQueryMigration "001_create_courses" createCourses dropCourses.
Definition users : SqlxMigration :=
  SqlxQueryMigration "002_create_users" createUsers "".
Definition broken : SqlxMigration :=
  SqlxQueryMigration "003_broken" "CREATE TABEL widgets" "".

Definition registry (ms : list SqlxMigration) : Sqlx :=
  {| Migrations := ms; Printf := None |}.

(** A disk with one migration file that can be read and one that
    cannot. *)
Definition disk : FS :=
  mkFS {[ "migrations/001_courses.up.sql" := Readable createCourses;
          "migrations/locked.sql" :=
            Unreadable (PathError "read" "migrations/locked.sql") ]} [].
End Scenario.

(** ** Vocabulary of the further properties *)

(** The ids whose reverse action was invoked, in order. *)
Definition reverses (evs : list Event) : list string :=
  evs ≫= (λ ev, match ev with EvReverse id => [id] | _ => [] end).

(** An error that carries the context [p]. *)
Definition in_context (p : string) (e : error) : Prop :=
  ∃ cause, e = Errorf p cause.

(** An action that cannot panic. *)
Inductive no_crash : TxFunc → Prop :=
  | no_crash_Ret err : no_crash (Ret err)
  | no_crash_Exec q args k :
      (∀ err, no_crash (k err)) → no_crash (Exec q args k).

(** The worlds agree on everything but what was printed. *)
Definition same_db {U} (w w' : World U) : Prop :=
  committed w = committed w' ∧ txs w = txs w' ∧
  faults w = faults w' ∧ trace w = trace w'.

(** The steps of [ms] that have a reverse action and are applied in [st],
    in order. *)
Definition reversible {U} (st : Store U) (ms : list SqlxMigration)
  : list SqlxMigration :=
  filter (λ m, has_reverse m ∧ applied st (ID m)) ms.

(** A step whose reverse action, if it has one, leaves the tracker table
    alone. *)
Definition reverse_safe {U} (engine : Engine U) (m : SqlxMigration) : Prop :=
  ∀ g, Rollback m = Some g → tracker_safe engine g.

(** The line [Migrate] prints for the step [m] when the tracker is that
    of [st]. *)
Definition migrate_line {U} (st : Store U) (m : SqlxMigration) : string :=
  (if decide (applied st (ID m))
   then "Skipping migration: "
   else "Running migration: ") +:+ ID m +:+ nl.

(** The line [Rollback] prints for the step [m] when the tracker is that
    of [st]. *)
Definition rollback_line {U} (st : Store U) (m : SqlxMigration) : string :=
  match Rollback m with
  | None => "Rollback not provided: "
  | Some _ =>
      if decide (applied st (ID m))
      then "Running rollback: "
      else "Skipping rollback: "
  end +:+ ID m +:+ nl.

(** The worlds agree on what a later call can observe: the committed
    store, the fault script and what was printed. *)
Definition same_state {U} (w w' : World U) : Prop :=
  committed w = committed w' ∧ faults w = faults w' ∧ out w = out w'.

(** How two runs of the two variants compare: same result, same fault
    script and output left, and the same committed store when the result
    is nil. *)
Definition agrees {U} (old new : World U * res (option error)) : Prop :=
  old.2 = new.2 ∧
  faults old.1 = faults new.1 ∧
  out old.1 = out new.1 ∧
  (new.2 = Val None → committed old.1 = committed new.1).

(** [SqlxFileMigration] of the earlier variant: one file, opened whatever
    its name is. *)
Module OldFile.
Definition SqlxFileMigration (id filename : string) (fs : FS)
  : FS * res Old.SqlxMigration :=
  let '(fs, r) := os_Open filename fs in
  match r with
  | inr err => (fs, Panic err)
  | inl f =>
      match ioutil_ReadAll f with
      | inr err => (fs, Panic err)
      | inl fileBytes =>
          (fs, Val {| Old.ID := id;
                      Old.Migrate := Some (Exec fileBytes [] Ret) |})
      end
  end.
End OldFile.

(** ** The earlier executor as one script *)

Section EarlierTransaction.
Context {U : Type} (engine : Engine U).

(** The world and the result the earlier [runMigration] ends in: as
    [transaction_result], but the insert is committed at once and shows
    in every open transaction. *)
Definition old_result (id : string) (f : option TxFunc) (w : World U)
  : World U * res (option error) :=
  let tx := length (txs w) in
  let errorf := Errorf "running migration" in
  match faults w with
  | true :: fs =>
      (mkWorld (committed w) (txs w) fs (trace w ++ [EvBegin]) (out w),
       Val (Some (errorf badConn)))
  | fs0 =>
      let '(c1, fs1, err) :=
        stmt_effect engine insertSQL [id] (tail fs0) (committed w) in
      let begun := [EvBegin; EvDbExec insertSQL [id]] in
      match err with
      | Some e =>
          (mkWorld (committed w) (txs w ++ [None]) fs1
             (trace w ++ begun ++ [EvRollback tx]) (out w),
           Val (Some (errorf e)))
      | None =>
          let others := refresh engine insertSQL [id] <$> txs w in
          match f with
          | None =>
              (mkWorld c1 (others ++ [Some c1]) fs1
                 (trace w ++ begun ++ [EvApply id]) (out w),
               Panic nilDeref)
          | Some g =>
              let '(v2, fs2, stmts, r) := action_effect engine g fs1 c1 in
              let called := begun ++ EvApply id :: tx_events tx stmts in
              match r with
              | Panic x =>
                  (mkWorld c1 (others ++ [Some v2]) fs2
                     (trace w ++ called) (out w),
                   Panic x)
              | Val (Some e) =>
                  (mkWorld c1 (others ++ [None]) fs2
                     (trace w ++ called ++ [EvRollback tx]) (out w),
                   Val (Some (errorf e)))
              | Val None =>
                  match fs2 with
                  | true :: fs3 =>
                      (mkWorld c1 (others ++ [None]) fs3
                         (trace w ++ called ++ [EvCommit tx]) (out w),
                       Val (Some (errorf badConn)))
                  | _ =>
                      (mkWorld v2 (others ++ [None]) (tail fs2)
                         (trace w ++ called ++ [EvCommit tx]) (out w),
                       Val None)
                  end
              end
          end
      end
  end.
End EarlierTransaction.

(** A disk with the two files of a reversible step, and an empty file. *)
Definition disk2 : FS :=
  mkFS {[ "migrations/001.up.sql" := Readable Scenario.createCourses;
          "migrations/001.down.sql" := Readable Scenario.dropCourses;
          "migrations/empty.sql" := Readable "" ]} [].

(** * Properties *)

#[local] Set Warnings "-clear-no-such-hyp".

Section Proofs.
Context {U : Type} (engine : Engine U).
Implicit Types (w : World U) (v st : Store U) (g : TxFunc) (f : option TxFunc) (tx : Tx).

Lemma view_lookup tx w v : view tx w = Some v ↔ txs w !! tx = Some (Some v).
Proof.
  unfold view. destruct (txs w !! tx) as [[?|]|]; simpl; split; congruence.
Qed.

Lemma tx_Exec_effect tx q args w v v' fs' err :
  view tx w = Some v →
  stmt_effect engine q args (faults w) v = (v', fs', err) →
  tx_Exec engine tx q args w =
    (mkWorld (committed w) (<[tx := Some v']> (txs w)) fs'
       (trace w ++ [EvTxExec tx q args]) (out w), Val err).
Proof.
  intros Hv He. unfold tx_Exec.
  assert (Hv' : view tx (emit (EvTxExec tx q args) w) = Some v) by done.
  rewrite Hv'. apply view_lookup in Hv.
  unfold stmt_effect in He. unfold next_fault, emit; simpl.
  destruct (faults w) as [|[] fs]; simpl in *.
  - destruct (exec engine q args v); simplify_eq; try done.
    by rewrite list_insert_id.
  - simplify_eq. by rewrite list_insert_id.
  - destruct (exec engine q args v); simplify_eq; try done.
    by rewrite list_insert_id.
Qed.

Lemma run_effect (f : TxFunc) : ∀ tx w v v' fs' stmts r,
  view tx w = Some v →
  action_effect engine f (faults w) v = (v', fs', stmts, r) →
  run engine f tx w =
    (mkWorld (committed w) (<[tx := Some v']> (txs w)) fs'
       (trace w ++ tx_events tx stmts) (out w), r).
Proof.
  induction f as [err|q args k IH|x]; intros tx w v v' fs' stmts r Hv He;
    simpl in He.
  - simplify_eq. simpl. unfold ret. apply view_lookup in Hv.
    rewrite list_insert_id by done. rewrite app_nil_r. by destruct w.
  - destruct (stmt_effect engine q args (faults w) v) as [[v1 fs1] err] eqn:E1.
    destruct (action_effect engine (k err) fs1 v1) as [[[v2 fs2] st2] r2] eqn:E2.
    simplify_eq. simpl. unfold bind.
    rewrite (tx_Exec_effect _ _ _ _ _ _ _ _ Hv E1).
    rewrite (IH err tx _ v1 v' fs' st2 r); simpl.
    + rewrite list_insert_insert_eq. rewrite <- app_assoc. done.
    + apply view_lookup. simpl. apply list_lookup_insert_eq.
      apply view_lookup in Hv. by eapply lookup_lt_Some.
    + done.
  - simplify_eq. simpl. unfold panic. apply view_lookup in Hv.
    rewrite list_insert_id by done. rewrite app_nil_r. by destruct w.
Qed.

Lemma Beginx_result w :
  db_Beginx w =
    match faults w with
    | true :: fs =>
        (mkWorld (committed w) (txs w) fs (trace w ++ [EvBegin]) (out w),
         Val (inr badConn))
    | fs =>
        (mkWorld (committed w) (txs w ++ [Some (committed w)]) (tail fs)
           (trace w ++ [EvBegin]) (out w),
         Val (inl (length (txs w))))
    end.
Proof.
  unfold db_Beginx, next_fault, emit; simpl. by destruct (faults w) as [|[] ?].
Qed.

Lemma Rollback_open tx w v :
  view tx w = Some v →
  tx_Rollback tx w =
    (mkWorld (committed w) (<[tx := None]> (txs w)) (faults w)
       (trace w ++ [EvRollback tx]) (out w), Val None).
Proof.
  intros Hv. unfold tx_Rollback.
  assert (Hv' : view tx (emit (EvRollback tx) w) = Some v) by done.
  by rewrite Hv'.
Qed.

Lemma Commit_open tx w v :
  view tx w = Some v →
  tx_Commit tx w =
    match faults w with
    | true :: fs =>
        (mkWorld (committed w) (<[tx := None]> (txs w)) fs
           (trace w ++ [EvCommit tx]) (out w), Val (Some badConn))
    | fs =>
        (mkWorld v (<[tx := None]> (txs w)) (tail fs)
           (trace w ++ [EvCommit tx]) (out w), Val None)
    end.
Proof.
  intros Hv. unfold tx_Commit.
  assert (Hv' : view tx (emit (EvCommit tx) w) = Some v) by done.
  rewrite Hv'. unfold next_fault, emit; simpl.
  by destruct (faults w) as [|[] ?].
Qed.

Lemma view_new (l : list (option (Store U))) x c fs t o :
  view (length l) (mkWorld c (l ++ [x]) fs t o) = x.
Proof. unfold view; simpl. by rewrite list_lookup_middle. Qed.

Lemma insert_new (l : list (option (Store U))) x y :
  <[length l := y]> (l ++ [x]) = l ++ [y].
Proof. by rewrite insert_app_r_alt, Nat.sub_diag by lia. Qed.

Ltac fin :=
  simpl; unfold ret; rewrite ?insert_new, <- ?app_assoc; reflexivity.

Lemma in_transaction_result stmt ev prefix id (f : option TxFunc) w :
  in_transaction engine stmt ev prefix id f w
  = transaction_result engine stmt ev prefix id f w.
Proof.
  unfold in_transaction, transaction_result, bind.
  rewrite Beginx_result.
  destruct (faults w) as [|[] fs] eqn:Hfs; [| done |].
  all: simpl tail;
    destruct (stmt_effect engine _ _ _ _) as [[v1 fs1] err] eqn:E1.
  all: erewrite tx_Exec_effect; [| apply view_new | exact E1 ].
  all: simpl; rewrite insert_new.
  all: destruct err as [e|];
    [ erewrite Rollback_open by apply view_new; fin | ].
  all: destruct f as [g|]; simpl; [| unfold panic, emit; fin ].
  all: destruct (action_effect engine g fs1 v1) as [[[v2 fs2] stmts] r] eqn:E2.
  all: erewrite run_effect; [| apply view_new | exact E2 ].
  all: simpl; rewrite insert_new.
  all: destruct r as [[e|]|x]; [ | | fin ].
  all: try (erewrite Rollback_open by apply view_new; fin).
  all: erewrite Commit_open by apply view_new; simpl.
  all: destruct fs2 as [|[] fs3]; fin.
Qed.

Lemma since_app w c l fs evs o :
  since w (mkWorld c l fs (trace w ++ evs) o) = evs.
Proof. unfold since; simpl. by rewrite drop_app_length. Qed.

Lemma view_closed (l : list (option (Store U))) c c' fs fs' t t' o o' tx :
  view tx (mkWorld c (l ++ [None]) fs t o) = view tx (mkWorld c' l fs' t' o').
Proof.
  unfold view; simpl. destruct (decide (tx < length l)).
  - by rewrite lookup_app_l.
  - rewrite (lookup_ge_None_2 l) by lia.
    destruct (decide (tx = length l)) as [->|].
    + by rewrite list_lookup_middle.
    + rewrite lookup_ge_None_2; [done|]. rewrite length_app; simpl; lia.
Qed.

Lemma transaction_failure stmt ev prefix id f w w' r :
  transaction_result engine stmt ev prefix id f w = (w', r) →
  r ≠ Val None → committed w' = committed w.
Proof.
  unfold transaction_result. intros H Hr.
  repeat case_match; simplify_eq; done.
Qed.

Lemma transaction_views stmt ev prefix id f w w' err :
  transaction_result engine stmt ev prefix id f w = (w', Val err) →
  ∀ tx, view tx w' = view tx w.
Proof.
  unfold transaction_result. intros H tx.
  repeat case_match; simplify_eq; try done.
  all: try (destruct w; apply view_closed).
Qed.

Lemma transaction_success stmt ev prefix id f w w' :
  transaction_result engine stmt ev prefix id f w = (w', Val None) →
  ∃ g v1 v2 fs stmts,
    f = Some g ∧
    exec engine stmt [id] (committed w) = inl v1 ∧
    action_effect engine g (drop 2 (faults w)) v1 = (v2, fs, stmts, Val None) ∧
    committed w' = v2 ∧
    since w w' = [EvBegin; EvTxExec (length (txs w)) stmt [id]; ev]
                 ++ tx_events (length (txs w)) stmts
                 ++ [EvCommit (length (txs w))].
Proof.
  unfold transaction_result, stmt_effect. intros H.
  destruct (faults w) as [|[] [|[] fs]]; simpl in *;
    repeat case_match; simplify_eq.
  all: eexists _, _, _, _, _; split_and!; try done; simpl; try eassumption.
  all: try by rewrite since_app.
Qed.

(** *** Lookups, printing and the table check *)

Lemma db_Get_result q args w :
  db_Get q args w =
    (mkWorld (committed w) (txs w) (tail (faults w))
       (trace w ++ [EvDbGet q args]) (out w),
     Val (lookup_error q args w)).
Proof.
  unfold db_Get, lookup_error, next_fault, emit; simpl.
  by destruct (faults w) as [|[] ?].
Qed.

Lemma lookups_app a b : lookups (a ++ b) = lookups a ++ lookups b.
Proof. unfold lookups. by rewrite bind_app. Qed.
Lemma applies_app a b : applies (a ++ b) = applies a ++ applies b.
Proof. unfold applies. by rewrite bind_app. Qed.
Lemma commits_app a b : commits (a ++ b) = commits a ++ commits b.
Proof. unfold commits. by rewrite bind_app. Qed.

Lemma lookups_tx_events tx stmts : lookups (tx_events tx stmts) = [].
Proof. induction stmts; [done|]. simpl. done. Qed.
Lemma applies_tx_events tx stmts : applies (tx_events tx stmts) = [].
Proof. induction stmts; [done|]. simpl. done. Qed.
Lemma commits_tx_events tx stmts : commits (tx_events tx stmts) = [].
Proof. induction stmts; [done|]. simpl. done. Qed.

Lemma lookups_cons ev l : lookups (ev :: l) = lookups [ev] ++ lookups l.
Proof. apply (lookups_app [ev] l). Qed.
Lemma applies_cons ev l : applies (ev :: l) = applies [ev] ++ applies l.
Proof. apply (applies_app [ev] l). Qed.
Lemma commits_cons ev l : commits (ev :: l) = commits [ev] ++ commits l.
Proof. apply (commits_app [ev] l). Qed.

(** Whatever the outcome, a transaction script only extends the trace,
    with no lookup, and prints nothing. *)
Lemma transaction_trace stmt ev prefix id f w w' r :
  transaction_result engine stmt ev prefix id f w = (w', r) →
  lookups [ev] = [] →
  ∃ evs, trace w' = trace w ++ evs ∧ lookups evs = [] ∧ out w' = out w.
Proof.
  unfold transaction_result. intros H Hev.
  repeat case_match; simplify_eq; simpl; eexists; split_and!; try done.
  all: repeat (rewrite lookups_cons, ?Hev; simpl).
  all: rewrite ?lookups_app, ?lookups_tx_events; done.
Qed.

(** *** The two executors *)

Lemma transaction_applies stmt id' prefix id f w w' r :
  transaction_result engine stmt (EvApply id') prefix id f w = (w', r) →
  applies (since w w') `prefix_of` [id'].
Proof.
  unfold transaction_result. intros H.
  repeat case_match; simplify_eq; rewrite since_app.
  all: rewrite ?applies_app, ?(applies_cons (EvApply _) (tx_events _ _)),
         ?applies_tx_events; simpl; try done.
  all: apply prefix_nil.
Qed.

Lemma runMigration_result s m w :
  runMigration engine s m w =
    transaction_result engine insertSQL (EvApply (ID m))
      "running migration" (ID m) (Migrate m) w.
Proof. apply in_transaction_result. Qed.

Lemma runRollback_result s m w :
  runRollback engine s m w =
    transaction_result engine deleteSQL (EvReverse (ID m))
      "running rollback" (ID m) (Rollback m) w.
Proof. apply in_transaction_result. Qed.

Lemma exec_create st :
  exec engine createTableSQL [] st =
    inl (match tracker st with
         | Some _ => st
         | None => mkStore (Some ∅) (schema st)
         end).
Proof. unfold exec. rewrite decide_True by done. by destruct (tracker st). Qed.

Lemma exec_insert id st :
  exec engine insertSQL [id] st =
    match tracker st with
    | Some rows =>
        if decide (id ∈ rows)
        then inr (DriverError "UNIQUE constraint failed: migrations.id")
        else inl (mkStore (Some ({[id]} ∪ rows)) (schema st))
    | None => inr (DriverError "no such table: migrations")
    end.
Proof.
  unfold exec. rewrite decide_False by done. by rewrite decide_True by done.
Qed.

Lemma exec_delete id st :
  exec engine deleteSQL [id] st =
    match tracker st with
    | Some rows => inl (mkStore (Some (rows ∖ {[id]})) (schema st))
    | None => inr (DriverError "no such table: migrations")
    end.
Proof.
  unfold exec. do 2 rewrite decide_False by done.
  by rewrite decide_True by done.
Qed.

Lemma select_id id st :
  select selectSQL [id] st =
    match tracker st with
    | Some rows => if decide (id ∈ rows) then None else Some ErrNoRows
    | None => Some (DriverError "no such table: migrations")
    end.
Proof. unfold select. by rewrite decide_True by done. Qed.

Lemma createMigrationTable_result s w :
  createMigrationTable engine s w =
    match faults w with
    | true :: fs =>
        (mkWorld (committed w) (txs w) fs
           (trace w ++ [EvDbExec createTableSQL []]) (out w),
         Val (Some (Errorf "creating migrations table" badConn)))
    | fs =>
        (mkWorld
           (match tracker (committed w) with
            | Some _ => committed w
            | None => mkStore (Some ∅) (schema (committed w))
            end)
           (refresh engine createTableSQL [] <$> txs w) (tail fs)
           (trace w ++ [EvDbExec createTableSQL []]) (out w),
         Val None)
    end.
Proof.
  unfold createMigrationTable, bind, db_Exec, next_fault, emit; simpl.
  destruct (faults w) as [|[] ?]; simpl; try done.
  all: by rewrite exec_create.
Qed.

(** *** The apply loop *)

Lemma printf_fst s line w :
  printf s line w = ((printf s line w).1, Val tt).
Proof. done. Qed.

Lemma migrateLoop_in_order s ms : ∀ w,
  apply_in_order engine s ms w (migrateLoop engine s ms w).
Proof.
  induction ms as [|m ms IH]; intros w; simpl; [constructor|].
  unfold bind at 1. rewrite db_Get_result.
  set (w1 := mkWorld _ _ _ _ _).
  destruct (lookup_error selectSQL [ID m] w) as [err|] eqn:Hl.
  - destruct (decide (err = ErrNoRows)) as [->|Hne].
    + unfold bind at 1. rewrite printf_fst.
      set (w2 := (printf s _ w1).1).
      unfold bind at 1.
      destruct (runMigration engine s m w2) as [w3 r] eqn:Hr.
      destruct r as [[e|]|x].
      * eapply apply_absent_failed with (w1 := w1);
          [by rewrite db_Get_result, Hl| done |done].
      * eapply apply_absent_ok with (w1 := w1);
          [by rewrite db_Get_result, Hl| done |apply IH].
      * eapply apply_absent_failed with (w1 := w1);
          [by rewrite db_Get_result, Hl| done |done].
    + replace (match err with ErrNoRows => _ | _ => _ end w1)
        with (w1, Val (Some (Errorf "looking up migration by id" err)))
        by (by destruct err).
      eapply apply_lookup_error with (w1 := w1); [|done].
      by rewrite db_Get_result, Hl.
  - unfold bind at 1. rewrite printf_fst.
    eapply apply_found with (w1 := w1); [by rewrite db_Get_result, Hl|].
    apply IH.
Qed.

Lemma db_Get_frame q args w w1 r :
  db_Get q args w = (w1, r) →
  trace w1 = trace w ++ [EvDbGet q args] ∧ committed w1 = committed w ∧
  txs w1 = txs w ∧ out w1 = out w ∧ faults w1 = tail (faults w) ∧
  r = Val (lookup_error q args w).
Proof. rewrite db_Get_result. intros [= <- <-]. done. Qed.

Lemma printf_frame s line w :
  trace (printf s line w).1 = trace w ∧
  committed (printf s line w).1 = committed w ∧
  txs (printf s line w).1 = txs w ∧
  faults (printf s line w).1 = faults w.
Proof. done. Qed.

Lemma runMigration_trace s m w w' r :
  runMigration engine s m w = (w', r) →
  ∃ evs, trace w' = trace w ++ evs ∧ lookups evs = [] ∧ out w' = out w.
Proof.
  rewrite runMigration_result. intros H.
  by eapply transaction_trace.
Qed.

Lemma runRollback_trace s m w w' r :
  runRollback engine s m w = (w', r) →
  ∃ evs, trace w' = trace w ++ evs ∧ lookups evs = [] ∧ out w' = out w.
Proof.
  rewrite runRollback_result. intros H.
  by eapply transaction_trace.
Qed.

Lemma apply_in_order_lookups s ms w o :
  apply_in_order engine s ms w o →
  ∃ evs, trace o.1 = trace w ++ evs ∧
         lookups evs `prefix_of` (ID <$> ms) ∧
         (o.2 = Val None → lookups evs = ID <$> ms).
Proof.
  induction 1 as [w|m ms w w1 o Hg _ IH|m ms w w1 w2 o Hg Hr _ IH
                  |m ms w w1 w2 r Hg Hr Hne|m ms w w1 err Hg Hne]; simpl.
  - exists []. rewrite app_nil_r. split_and!; done.
  - apply db_Get_frame in Hg as (Ht & _).
    destruct IH as (evs & Ht' & Hp & Hs).
    exists (EvDbGet selectSQL [ID m] :: evs). split_and!.
    + rewrite Ht'. destruct (printf_frame s ("Skipping migration: " +:+ ID m +:+ nl) w1) as [-> _].
      rewrite Ht, <- app_assoc. done.
    + rewrite lookups_cons. simpl. by apply prefix_cons.
    + intros Ho. rewrite lookups_cons; simpl. by rewrite Hs.
  - apply db_Get_frame in Hg as (Ht & _).
    apply runMigration_trace in Hr as (evs2 & Ht2 & Hl2 & _).
    destruct IH as (evs & Ht' & Hp & Hs).
    exists (EvDbGet selectSQL [ID m] :: evs2 ++ evs). split_and!.
    + rewrite Ht', Ht2.
      destruct (printf_frame s ("Running migration: " +:+ ID m +:+ nl) w1) as [-> _].
      rewrite Ht, <- !app_assoc. done.
    + rewrite lookups_cons, lookups_app, Hl2. simpl. by apply prefix_cons.
    + intros Ho. rewrite lookups_cons, lookups_app, Hl2; simpl. by rewrite Hs.
  - apply db_Get_frame in Hg as (Ht & _).
    apply runMigration_trace in Hr as (evs2 & Ht2 & Hl2 & _).
    exists (EvDbGet selectSQL [ID m] :: evs2). split_and!.
    + rewrite Ht2.
      destruct (printf_frame s ("Running migration: " +:+ ID m +:+ nl) w1) as [-> _].
      rewrite Ht, <- !app_assoc. done.
    + rewrite lookups_cons, Hl2. simpl. apply prefix_cons, prefix_nil.
    + done.
  - apply db_Get_frame in Hg as (Ht & _).
    exists [EvDbGet selectSQL [ID m]]. split_and!; [done| |done].
    apply prefix_cons, prefix_nil.
Qed.

Lemma printf_log_only s line w : log_only w (printf s line w).1.
Proof. done. Qed.

Lemma db_Get_sound id w : lookup_sound w id (db_Get selectSQL [id] w).2.
Proof.
  rewrite db_Get_result. unfold lookup_sound, lookup_error, applied; simpl.
  destruct (faults w) as [|[] ?]; try done.
  all: rewrite select_id; destruct (tracker (committed w)); try done.
  all: case_decide; try done; split; try done; by eexists.
Qed.

Lemma since_ext w w' evs : trace w' = trace w ++ evs → since w w' = evs.
Proof. unfold since. intros ->. by rewrite drop_app_length. Qed.

(** C3.  [Migrate] first sends the statement that creates the tracker
    table if it is missing; when that fails it returns that error and
    does nothing else.  Otherwise the table exists and the entries are
    visited as [apply_in_order] says: in the order of the registry, an
    entry whose lookup answers [ErrNoRows] is run, an entry that is found
    is skipped with a printed line only and the visit goes on, and any
    other lookup error ends the visit with that error wrapped.  The ids
    looked up form a prefix of the ids of the registry, in order, and all
    of them when [Migrate] returns nil. *)
Theorem Migrate_visits_in_declared_order (s : Sqlx) (w : World U) :
  let w0 := (printf s ("Creating/checking migrations table..." +:+ nl) w).1 in
  let '(w1, checked) := createMigrationTable engine s w0 in
  let '(w', r) := Sqlx_Migrate engine s w in
  (∃ evs, since w w' = EvDbExec createTableSQL [] :: evs ∧
          lookups evs `prefix_of` (ID <$> Migrations s) ∧
          (r = Val None → lookups evs = ID <$> Migrations s)) ∧
  match checked with
  | Val None =>
      is_Some (tracker (committed w1)) ∧
      apply_in_order engine s (Migrations s) w1 (w', r)
  | failed =>
      w' = w1 ∧ r = failed ∧ since w w' = [EvDbExec createTableSQL []]
  end ∧
  (∀ id (wa : World U), lookup_sound wa id (db_Get selectSQL [id] wa).2) ∧
  (∀ line (wa : World U), log_only wa (printf s line wa).1).
Proof.
  intros w0.
  cut (let '(w1, checked) := createMigrationTable engine s w0 in
       let '(w', r) := Sqlx_Migrate engine s w in
       (∃ evs, since w w' = EvDbExec createTableSQL [] :: evs ∧
               lookups evs `prefix_of` (ID <$> Migrations s) ∧
               (r = Val None → lookups evs = ID <$> Migrations s)) ∧
       match checked with
       | Val None =>
           is_Some (tracker (committed w1)) ∧
           apply_in_order engine s (Migrations s) w1 (w', r)
       | failed =>
           w' = w1 ∧ r = failed ∧ since w w' = [EvDbExec createTableSQL []]
       end).
  { destruct (createMigrationTable engine s w0) as [w1 checked].
    destruct (Sqlx_Migrate engine s w) as [w' r].
    intros [H1 H2].
    split_and!; auto using db_Get_sound, printf_log_only. }
  assert (Ht0 : trace w0 = trace w) by done.
  assert (Hw0 : printf s ("Creating/checking migrations table..." +:+ nl) w
                = (w0, Val tt)) by done.
  clearbody w0.
  destruct (createMigrationTable engine s w0) as [w1 checked] eqn:Hc.
  destruct (Sqlx_Migrate engine s w) as [w' r] eqn:Hm.
  unfold Sqlx_Migrate, bind in Hm. rewrite Hw0, Hc in Hm.
  rewrite createMigrationTable_result in Hc.
  destruct (faults w0) as [|[] fs] eqn:Hf; unfold ret in Hm;
    simplify_eq; simpl.
  2: { split; [|split_and!; try done; apply since_ext; simpl; by rewrite Ht0].
       exists []. split_and!; [|apply prefix_nil|done].
       apply since_ext. simpl. by rewrite Ht0. }
  all: pose proof (migrateLoop_in_order s (Migrations s)) as Hrel;
    match type of Hm with migrateLoop _ _ _ ?w1 = _ =>
      specialize (Hrel w1); rewrite Hm in Hrel end.
  all: destruct (apply_in_order_lookups _ _ _ _ Hrel) as (evs & Ht & Hp & Hs);
    simpl in Ht.
  all: split; [exists evs; split_and!; try done;
               apply since_ext; rewrite Ht, Ht0, <- app_assoc; done|].
  all: split; [|done];
    destruct (tracker (committed w0)) eqn:E; simpl; rewrite ?E; by eexists.
Qed.

Lemma stmt_effect_tracker q args fs v v' fs' err :
  keeps_tracker engine q args →
  stmt_effect engine q args fs v = (v', fs', err) →
  tracker v' = tracker v.
Proof.
  unfold stmt_effect. intros Hk H.
  destruct fs as [|[] ?]; simplify_eq; try done.
  all: destruct (exec engine q args v) eqn:E; simplify_eq; eauto.
Qed.

Lemma action_effect_tracker (g : TxFunc) :
  tracker_safe engine g →
  ∀ fs v v' fs' stmts r,
    action_effect engine g fs v = (v', fs', stmts, r) →
    tracker v' = tracker v.
Proof.
  induction 1 as [err|x|q args k Hk _ IH]; intros fs v v' fs' stmts r H;
    simpl in H; simplify_eq; try done.
  destruct (stmt_effect engine q args fs v) as [[v1 fs1] err] eqn:E1.
  destruct (action_effect engine (k err) fs1 v1) as [[[v2 fs2] st2] r2] eqn:E2.
  simplify_eq. apply IH in E2. rewrite E2.
  by eapply stmt_effect_tracker.
Qed.

Lemma transaction_commits stmt ev prefix id f w w' r :
  transaction_result engine stmt ev prefix id f w = (w', r) →
  commits [ev] = [] →
  commits (since w w') ≠ [] →
  ∃ g v1 v2 fs stmts,
    f = Some g ∧
    exec engine stmt [id] (committed w) = inl v1 ∧
    action_effect engine g (drop 2 (faults w)) v1 = (v2, fs, stmts, Val None).
Proof.
  unfold transaction_result, stmt_effect. intros H Hev Hc.
  destruct (faults w) as [|[] [|[] fs]]; simpl in *;
    repeat case_match; simplify_eq.
  all: rewrite since_app in Hc.
  all: repeat (rewrite commits_cons, ?Hev in Hc; simpl in Hc).
  all: rewrite ?commits_app, ?commits_tx_events in Hc; try done.
  all: eexists _, _, _, _, _; split_and!; try done; simpl; eassumption.
Qed.

(** C1.  [runMigration] runs the bookkeeping insert and the apply action
    of the step in one transaction.  Whenever it does not return nil (the
    begin, the insert, the action or the commit failed, or the call
    panicked) the committed store is the one it started from: neither the
    tracker row nor anything the action did is visible.  When it returns
    nil the committed store is the store it started from with the row
    inserted and then the statements of the action applied, and the
    trace is one [Begin], the insert and the statements of the action on
    that transaction, and one [Commit].  Whenever it returns, every
    transaction has the view it had before: the one it began is closed. *)
Theorem runMigration_atomic (s : Sqlx) (m : SqlxMigration) (w : World U) :
  let '(w', r) := runMigration engine s m w in
  match r with
  | Val None =>
      ∃ g v1 v2 fs stmts,
        Migrate m = Some g ∧
        exec engine insertSQL [ID m] (committed w) = inl v1 ∧
        applied v1 (ID m) ∧
        action_effect engine g (drop 2 (faults w)) v1
          = (v2, fs, stmts, Val None) ∧
        committed w' = v2 ∧
        since w w' =
          [EvBegin; EvTxExec (length (txs w)) insertSQL [ID m];
           EvApply (ID m)]
          ++ tx_events (length (txs w)) stmts
          ++ [EvCommit (length (txs w))] ∧
        (tracker_safe engine g → applied (committed w') (ID m))
  | _ => committed w' = committed w
  end ∧
  (∀ err, r = Val err → ∀ tx, view tx w' = view tx w).
Proof.
  destruct (runMigration engine s m w) as [w' r] eqn:H.
  rewrite runMigration_result in H. split.
  - destruct r as [[e|]|x]; try by eapply transaction_failure.
    apply transaction_success in H
      as (g & v1 & v2 & fs & stmts & Hf & Hx & Ha & Hc & Hs).
    assert (Hv1 : applied v1 (ID m)).
    { rewrite exec_insert in Hx. unfold applied.
      destruct (tracker (committed w)); [|done].
      case_decide; simplify_eq. simpl. set_solver. }
    exists g, v1, v2, fs, stmts. split_and!; try done.
    intros Hsafe. eapply action_effect_tracker in Ha; [|done].
    unfold applied in *. by rewrite Hc, Ha.
  - intros err ->. by eapply transaction_views.
Qed.

(** C6.  [runRollback] begins one transaction, deletes the tracker row
    of the step, then calls the reverse action.  It returns nil only for
    a step that has a reverse action, when the delete and the action both
    succeeded, and then the committed store is the old one with the row
    deleted and the statements of the action applied.  In every other
    outcome the committed store is unchanged, so a step that was applied
    stays applied.  [Commit] is called only when the delete succeeded and
    the action returned nil. *)
Theorem runRollback_atomic (s : Sqlx) (m : SqlxMigration) (w : World U) :
  let '(w', r) := runRollback engine s m w in
  match r with
  | Val None =>
      ∃ g v1 v2 fs stmts,
        Rollback m = Some g ∧
        exec engine deleteSQL [ID m] (committed w) = inl v1 ∧
        ¬ applied v1 (ID m) ∧
        action_effect engine g (drop 2 (faults w)) v1
          = (v2, fs, stmts, Val None) ∧
        committed w' = v2 ∧
        since w w' =
          [EvBegin; EvTxExec (length (txs w)) deleteSQL [ID m];
           EvReverse (ID m)]
          ++ tx_events (length (txs w)) stmts
          ++ [EvCommit (length (txs w))] ∧
        (tracker_safe engine g → ¬ applied (committed w') (ID m))
  | _ =>
      committed w' = committed w ∧
      (applied (committed w) (ID m) → applied (committed w') (ID m))
  end ∧
  (commits (since w w') ≠ [] →
   ∃ g v1 v2 fs stmts,
     Rollback m = Some g ∧
     exec engine deleteSQL [ID m] (committed w) = inl v1 ∧
     action_effect engine g (drop 2 (faults w)) v1
       = (v2, fs, stmts, Val None)) ∧
  (∀ err, r = Val err → ∀ tx, view tx w' = view tx w).
Proof.
  destruct (runRollback engine s m w) as [w' r] eqn:H.
  rewrite runRollback_result in H. split_and!.
  - destruct r as [[e|]|x].
    1,3: assert (committed w' = committed w) as ->
           by (by eapply transaction_failure); done.
    apply transaction_success in H
      as (g & v1 & v2 & fs & stmts & Hf & Hx & Ha & Hc & Hs).
    assert (Hv1 : ¬ applied v1 (ID m)).
    { rewrite exec_delete in Hx. unfold applied.
      destruct (tracker (committed w)); [|done].
      simplify_eq. simpl. set_solver. }
    exists g, v1, v2, fs, stmts. split_and!; try done.
    intros Hsafe. eapply action_effect_tracker in Ha; [|done].
    unfold applied in *. by rewrite Hc, Ha.
  - intros Hc. by eapply transaction_commits.
  - intros err ->. by eapply transaction_views.
Qed.

(** *** Cutting the registry *)

Lemma migrateLoop_Printf s s' ms :
  Printf s = Printf s' →
  ∀ w, migrateLoop engine s ms w = migrateLoop engine s' ms w.
Proof.
  intros HP. induction ms as [|m ms IH]; intros w; [done|].
  simpl. unfold bind, printf. rewrite HP.
  destruct (db_Get selectSQL [ID m] w) as [w1 [[[]|]|]]; try done.
  simpl. change (runMigration engine s m) with (runMigration engine s' m).
  destruct (runMigration engine s' m _) as [w2 [[|]|]]; done.
Qed.

Lemma migrateLoop_app s pre post : ∀ w,
  migrateLoop engine s (pre ++ post) w =
    match migrateLoop engine s pre w with
    | (w1, Val None) => migrateLoop engine s post w1
    | o => o
    end.
Proof.
  induction pre as [|m pre IH]; intros w; [done|].
  simpl. unfold bind.
  destruct (db_Get selectSQL [ID m] w) as [w1 [[[]|]|]]; try done.
  - destruct (printf s _ w1) as [w2 [[]|]]; [|done].
    destruct (runMigration engine s m w2) as [w3 [[|]|]]; try done.
  - destruct (printf s _ w1) as [w2 [[]|]]; [|done]. apply IH.
Qed.

Lemma Sqlx_Migrate_unfold s w :
  Sqlx_Migrate engine s w =
    match createMigrationTable engine s
            (printf s ("Creating/checking migrations table..." +:+ nl) w).1
    with
    | (wc, Val None) => migrateLoop engine s (Migrations s) wc
    | (wc, Val (Some err)) => (wc, Val (Some err))
    | (wc, Panic x) => (wc, Panic x)
    end.
Proof.
  unfold Sqlx_Migrate, bind. rewrite printf_fst.
  by destruct (createMigrationTable _ _ _) as [wc [[|]|]].
Qed.

Lemma createMigrationTable_frame s w wc chk :
  createMigrationTable engine s w = (wc, chk) →
  trace wc = trace w ++ [EvDbExec createTableSQL []] ∧ out wc = out w.
Proof.
  rewrite createMigrationTable_result.
  destruct (faults w) as [|[] ?]; intros [= <- <-]; done.
Qed.

(** C4.  When [Migrate] reaches a step [m] (the steps [pre] before it
    went through), its id is not in the tracker, and running it does not
    return nil, then [Migrate] ends there with exactly the world and the
    result of that run, whatever the later entries [post] are: none of
    them is looked up or run.  The committed store is the one the steps
    before [m] left, so their tracker rows are still there. *)
Theorem Migrate_aborts_at_first_failure
    (P : option (string → list string → list string))
    (pre post : list SqlxMigration) (m : SqlxMigration)
    (w w1 w2 w3 : World U) (r : res (option error)) :
  let s := mkSqlx (pre ++ m :: post) P in
  Sqlx_Migrate engine (mkSqlx pre P) w = (w1, Val None) →
  db_Get selectSQL [ID m] w1 = (w2, Val (Some ErrNoRows)) →
  runMigration engine s m
    (printf s ("Running migration: " +:+ ID m +:+ nl) w2).1 = (w3, r) →
  r ≠ Val None →
  Sqlx_Migrate engine s w = (w3, r) ∧
  committed w3 = committed w1 ∧
  (∀ id, applied (committed w1) id → applied (committed w3) id) ∧
  lookups (since w w3) = ID <$> (pre ++ [m]) ∧
  applies (since w1 w3) `prefix_of` [ID m].
Proof.
  intros s Hpre Hget Hrun Hr.
  rewrite Sqlx_Migrate_unfold in Hpre. rewrite Sqlx_Migrate_unfold.
  change (@printf U s) with (@printf U (mkSqlx pre P)).
  change (createMigrationTable engine s)
    with (createMigrationTable engine (mkSqlx pre P)).
  assert (HP : Printf s = Printf (mkSqlx pre P)) by done.
  assert (HM : Migrations s = pre ++ m :: post) by done.
  set (w0 := (printf (mkSqlx pre P) _ w).1) in *.
  assert (Ht0 : trace w0 = trace w) by done. clearbody w0 s.
  destruct (createMigrationTable engine (mkSqlx pre P) w0)
    as [wc [[|]|]] eqn:Hc; try done.
  apply createMigrationTable_frame in Hc as [Htc _].
  simpl in Hpre. rewrite HM.
  assert (Hc3 : committed w3 = committed w1).
  { rewrite runMigration_result in Hrun.
    eapply transaction_failure in Hrun; [|done].
    apply db_Get_frame in Hget as (_ & Hcw & _).
    by rewrite Hrun, <- Hcw. }
  split_and!.
  - rewrite migrateLoop_app.
    rewrite (migrateLoop_Printf s (mkSqlx pre P)) by done. rewrite Hpre.
    simpl. unfold bind. rewrite Hget. rewrite printf_fst, Hrun.
    by destruct r as [[|]|].
  - done.
  - intros id. by rewrite Hc3.
  - pose proof (migrateLoop_in_order (mkSqlx pre P) pre wc) as Hrel.
    rewrite Hpre in Hrel.
    apply apply_in_order_lookups in Hrel as (evs & Ht & _ & Hs).
    simpl in Ht, Hs. specialize (Hs eq_refl).
    apply db_Get_frame in Hget as (Htg & _).
    apply runMigration_trace in Hrun as (evs2 & Ht2 & Hl2 & _).
    erewrite since_ext.
    2: { rewrite Ht2.
         destruct (printf_frame s ("Running migration: " +:+ ID m +:+ nl) w2)
           as [-> _].
         rewrite Htg, Ht, Htc, Ht0, <- !app_assoc. done. }
    rewrite !lookups_app, Hs, Hl2. simpl.
    by rewrite fmap_app.
  - pose proof Hrun as Hrun'. rewrite runMigration_result in Hrun'.
    apply transaction_applies in Hrun'.
    apply db_Get_frame in Hget as (Htg & _).
    apply runMigration_trace in Hrun as (evs2 & Ht2 & _).
    destruct (printf_frame s ("Running migration: " +:+ ID m +:+ nl) w2)
      as [Htp _].
    rewrite (since_ext _ _ _ Ht2) in Hrun'.
    erewrite since_ext; [|by rewrite Ht2, Htp, Htg, <- app_assoc].
    by rewrite applies_app.
Qed.

(** *** The rollback loop *)

Lemma rollbackLoop_in_order s n : ∀ w,
  n ≤ length (Migrations s) →
  rollback_in_order engine s (reverse (take n (Migrations s))) w
    (rollbackLoop engine s n w).
Proof.
  induction n as [|i IH]; intros w Hn; simpl.
  { rewrite take_0. constructor. }
  destruct (lookup_lt_is_Some_2 (Migrations s) i) as [m Hm]; [lia|].
  rewrite (take_S_r _ _ _ Hm), reverse_snoc, Hm.
  specialize (λ w, IH w ltac:(lia)).
  destruct (Rollback m) as [g|] eqn:Hg.
  2: { unfold bind at 1. rewrite printf_fst.
       apply rollback_no_reverse; [done|]. apply IH. }
  assert (Hsome : is_Some (Rollback m)) by (by rewrite Hg).
  unfold bind at 1. rewrite db_Get_result.
  set (w1 := mkWorld _ _ _ _ _).
  destruct (lookup_error selectSQL [ID m] w) as [err|] eqn:Hl.
  - destruct (decide (err = ErrNoRows)) as [->|Hne].
    + unfold bind at 1. rewrite printf_fst.
      eapply rollback_absent with (w1 := w1);
        [done | by rewrite db_Get_result, Hl | apply IH].
    + replace (match err with ErrNoRows => _ | _ => _ end w1)
        with (w1, Val (Some (Errorf "looking up rollback by id" err)))
        by (by destruct err).
      eapply rollback_lookup_error with (w1 := w1); [done| |done].
      by rewrite db_Get_result, Hl.
  - unfold bind at 1. rewrite printf_fst.
    set (w2 := (printf s _ w1).1).
    unfold bind at 1.
    destruct (runRollback engine s m w2) as [w3 r] eqn:Hr.
    destruct r as [[e|]|x].
    + eapply rollback_found_failed with (w1 := w1);
        [done | by rewrite db_Get_result, Hl | done | done].
    + eapply rollback_found_ok with (w1 := w1);
        [done | by rewrite db_Get_result, Hl | done | apply IH].
    + eapply rollback_found_failed with (w1 := w1);
        [done | by rewrite db_Get_result, Hl | done | done].
Qed.

Lemma rollback_in_order_lookups s ms w o :
  rollback_in_order engine s ms w o →
  ∃ evs, trace o.1 = trace w ++ evs ∧
         lookups evs `prefix_of` (ID <$> filter has_reverse ms) ∧
         (o.2 = Val None → lookups evs = ID <$> filter has_reverse ms).
Proof.
  induction 1 as [w|m ms w o Hn _ IH|m ms w w1 o Hy Hg _ IH
                  |m ms w w1 w2 o Hy Hg Hr _ IH
                  |m ms w w1 w2 r Hy Hg Hr Hne|m ms w w1 err Hy Hg Hne];
    simpl.
  - exists []. rewrite app_nil_r. split_and!; done.
  - destruct IH as (evs & Ht' & Hp & Hs).
    rewrite filter_cons_False by (unfold has_reverse; rewrite Hn; by intros []).
    exists evs. split_and!; done.
  - apply db_Get_frame in Hg as (Ht & _).
    destruct IH as (evs & Ht' & Hp & Hs).
    rewrite filter_cons_True by done.
    exists (EvDbGet selectSQL [ID m] :: evs). split_and!.
    + rewrite Ht'. destruct (printf_frame s ("Skipping rollback: " +:+ ID m +:+ nl) w1) as [-> _].
      rewrite Ht, <- app_assoc. done.
    + rewrite lookups_cons. simpl. by apply prefix_cons.
    + intros Ho. rewrite lookups_cons; simpl. by rewrite Hs.
  - apply db_Get_frame in Hg as (Ht & _).
    apply runRollback_trace in Hr as (evs2 & Ht2 & Hl2 & _).
    destruct IH as (evs & Ht' & Hp & Hs).
    rewrite filter_cons_True by done.
    exists (EvDbGet selectSQL [ID m] :: evs2 ++ evs). split_and!.
    + rewrite Ht', Ht2.
      destruct (printf_frame s ("Running rollback: " +:+ ID m +:+ nl) w1) as [-> _].
      rewrite Ht, <- !app_assoc. done.
    + rewrite lookups_cons, lookups_app, Hl2. simpl. by apply prefix_cons.
    + intros Ho. rewrite lookups_cons, lookups_app, Hl2; simpl. by rewrite Hs.
  - apply db_Get_frame in Hg as (Ht & _).
    apply runRollback_trace in Hr as (evs2 & Ht2 & Hl2 & _).
    rewrite filter_cons_True by done.
    exists (EvDbGet selectSQL [ID m] :: evs2). split_and!.
    + rewrite Ht2.
      destruct (printf_frame s ("Running rollback: " +:+ ID m +:+ nl) w1) as [-> _].
      rewrite Ht, <- !app_assoc. done.
    + rewrite lookups_cons, Hl2. simpl. apply prefix_cons, prefix_nil.
    + done.
  - apply db_Get_frame in Hg as (Ht & _).
    rewrite filter_cons_True by done.
    exists [EvDbGet selectSQL [ID m]]. split_and!; [done| |done].
    apply prefix_cons, prefix_nil.
Qed.

(** C5.  [Rollback] checks the tracker table first, then visits the
    registry last entry first, as [rollback_in_order] says: an entry
    without a reverse action is skipped with a printed line and no lookup
    at all; otherwise its id is looked up, [ErrNoRows] skips it, a found
    row runs [runRollback] (whose first failure ends the visit), and any
    other lookup error ends the visit.  The ids looked up form a prefix of
    the ids of the entries that have a reverse action, in reverse order of
    the registry, and all of them when [Rollback] returns nil. *)
Theorem Rollback_visits_in_reverse_order (s : Sqlx) (w : World U) :
  let w0 := (printf s ("Creating/checking migrations table..." +:+ nl) w).1 in
  let '(w1, checked) := createMigrationTable engine s w0 in
  let '(w', r) := Sqlx_Rollback engine s w in
  (∃ evs, since w w' = EvDbExec createTableSQL [] :: evs ∧
          lookups evs `prefix_of`
            (ID <$> filter has_reverse (reverse (Migrations s))) ∧
          (r = Val None →
           lookups evs = ID <$> filter has_reverse (reverse (Migrations s)))) ∧
  match checked with
  | Val None =>
      rollback_in_order engine s (reverse (Migrations s)) w1 (w', r)
  | failed =>
      w' = w1 ∧ r = failed ∧ since w w' = [EvDbExec createTableSQL []]
  end ∧
  (∀ id (wa : World U), lookup_sound wa id (db_Get selectSQL [id] wa).2) ∧
  (∀ line (wa : World U), log_only wa (printf s line wa).1).
Proof.
  intros w0.
  cut (let '(w1, checked) := createMigrationTable engine s w0 in
       let '(w', r) := Sqlx_Rollback engine s w in
       (∃ evs, since w w' = EvDbExec createTableSQL [] :: evs ∧
               lookups evs `prefix_of`
                 (ID <$> filter has_reverse (reverse (Migrations s))) ∧
               (r = Val None →
                lookups evs =
                  ID <$> filter has_reverse (reverse (Migrations s)))) ∧
       match checked with
       | Val None =>
           rollback_in_order engine s (reverse (Migrations s)) w1 (w', r)
       | failed =>
           w' = w1 ∧ r = failed ∧ since w w' = [EvDbExec createTableSQL []]
       end).
  { destruct (createMigrationTable engine s w0) as [w1 checked].
    destruct (Sqlx_Rollback engine s w) as [w' r].
    intros [H1 H2].
    split_and!; auto using db_Get_sound, printf_log_only. }
  assert (Ht0 : trace w0 = trace w) by done.
  assert (Hw0 : printf s ("Creating/checking migrations table..." +:+ nl) w
                = (w0, Val tt)) by done.
  clearbody w0.
  destruct (createMigrationTable engine s w0) as [w1 checked] eqn:Hc.
  destruct (Sqlx_Rollback engine s w) as [w' r] eqn:Hm.
  unfold Sqlx_Rollback, bind in Hm. rewrite Hw0, Hc in Hm.
  rewrite createMigrationTable_result in Hc.
  destruct (faults w0) as [|[] fs] eqn:Hf; unfold ret in Hm;
    simplify_eq; simpl.
  2: { split; [|split_and!; try done; apply since_ext; simpl; by rewrite Ht0].
       exists []. split_and!; [|apply prefix_nil|done].
       apply since_ext. simpl. by rewrite Ht0. }
  all: pose proof (rollbackLoop_in_order s (length (Migrations s))) as Hrel;
    match type of Hm with rollbackLoop _ _ _ ?w1 = _ =>
      specialize (Hrel w1 ltac:(lia)); rewrite Hm, firstn_all in Hrel end.
  all: destruct (rollback_in_order_lookups _ _ _ _ Hrel) as (evs & Ht & Hp & Hs);
    simpl in Ht.
  all: split; [exists evs; split_and!; try done;
               apply since_ext; rewrite Ht, Ht0, <- app_assoc; done|].
  all: done.
Qed.

(** *** Running twice *)

Lemma lookup_found id w :
  lookup_error selectSQL [id] w = None → applied (committed w) id.
Proof.
  unfold lookup_error, applied. destruct (faults w) as [|[] ?]; try done.
  all: rewrite select_id; destruct (tracker (committed w)); try done.
  all: by case_decide.
Qed.

Lemma lookup_of_applied id w :
  faults w = [] → applied (committed w) id →
  lookup_error selectSQL [id] w = None.
Proof.
  unfold lookup_error, applied. intros ->. rewrite select_id.
  destruct (tracker (committed w)); [|done]. intros ?. by rewrite decide_True.
Qed.

Lemma pending_ext st st' (ms : list SqlxMigration) :
  (∀ m, m ∈ ms → applied st (ID m) ↔ applied st' (ID m)) →
  pending st ms = pending st' ms.
Proof.
  unfold pending. induction ms as [|m ms IH]; intros H; [done|].
  rewrite !filter_cons.
  rewrite IH by (intros m' Hm'; apply H; by right).
  destruct (H m) as [H1 H2]; [by left|].
  repeat case_decide; tauto.
Qed.

Lemma pending_all st (ms : list SqlxMigration) :
  (∀ m, m ∈ ms → ¬ applied st (ID m)) → pending st ms = ms.
Proof.
  unfold pending. induction ms as [|m ms IH]; intros H; [done|].
  rewrite filter_cons_True by (apply H; by left).
  rewrite IH; [done|]. intros m' Hm'. apply H. by right.
Qed.

(** A successful pass runs the steps that were not applied, each once
    and in order, skips the others, and leaves every step applied. *)
Lemma apply_in_order_success s ms w o :
  apply_in_order engine s ms w o →
  o.2 = Val None →
  NoDup (ID <$> ms) →
  Forall (step_safe engine) ms →
  ∃ evs, trace o.1 = trace w ++ evs ∧
         applies evs = ID <$> pending (committed w) ms ∧
         (∀ id, applied (committed o.1) id ↔
                applied (committed w) id ∨ id ∈ ID <$> ms) ∧
         (is_Some (tracker (committed w)) →
          is_Some (tracker (committed o.1))).
Proof.
  induction 1 as [w|m ms w w1 o Hg _ IH|m ms w w1 w2 o Hg Hr _ IH
                  |m ms w w1 w2 r Hg Hr Hne|m ms w w1 err Hg Hne];
    simpl; intros Ho Hnd Hsafe; try done.
  - exists []. rewrite app_nil_r. split_and!; try done.
    intros id. set_solver.
  - apply db_Get_frame in Hg as (Ht & Hc & _ & _ & _ & [= Hl]).
    symmetry in Hl. apply lookup_found in Hl.
    apply NoDup_cons in Hnd as [_ Hnd].
    apply Forall_cons in Hsafe as [_ Hsafe].
    destruct IH as (evs & Ht' & Hap & Hiff & Htr); try done.
    simpl in *. rewrite Hc in *.
    exists (EvDbGet selectSQL [ID m] :: evs). split_and!.
    + rewrite Ht', Ht, <- app_assoc. done.
    + rewrite applies_cons, Hap. unfold pending.
      by rewrite (filter_cons_False _ m) by tauto.
    + intros id. rewrite Hiff. set_solver.
    + done.
  - apply db_Get_frame in Hg as (Ht & Hc & _).
    rewrite runMigration_result in Hr.
    pose proof Hr as Hr'.
    apply transaction_success in Hr
      as (g & v1 & v2 & fs & stmts & Hf & Hx & Ha & Hc2 & Hs).
    apply transaction_trace in Hr' as (evs2 & Ht2 & _); [|done].
    simpl in Hc2, Hx.
    apply NoDup_cons in Hnd as [Hnotin Hnd].
    apply Forall_cons in Hsafe as [Hm Hsafe].
    apply action_effect_tracker in Ha; [|by apply Hm].
    rewrite exec_insert in Hx. rewrite Hc in Hx.
    destruct (tracker (committed w)) as [rows|] eqn:Hrows; [|done].
    case_decide as Hin; simplify_eq. simpl in Ha.
    assert (Hnew : ¬ applied (committed w) (ID m))
      by (unfold applied; by rewrite Hrows).
    assert (Happ : ∀ id, applied (committed w2) id ↔
                         applied (committed w) id ∨ id = ID m).
    { intros id. unfold applied. rewrite Ha, Hrows. set_solver. }
    destruct IH as (evs & Ht' & Hap & Hiff & Htr); try done.
    rewrite (pending_ext _ (committed w)) in Hap.
    2: { intros m' Hm'. rewrite Happ. split; [|by left].
         intros [?|Heq]; [done|]. destruct Hnotin.
         rewrite <- Heq. by apply list_elem_of_fmap_2. }
    assert (Hevs2 : evs2 = since (printf s ("Running migration: " +:+ ID m +:+ nl) w1).1 w2)
      by (symmetry; by apply since_ext).
    exists (EvDbGet selectSQL [ID m] :: evs2 ++ evs). split_and!.
    + rewrite Ht', Ht2. simpl. rewrite Ht, <- !app_assoc. done.
    + rewrite applies_cons, applies_app, Hap, Hevs2, Hs.
      rewrite !applies_app, applies_tx_events. unfold pending.
      by rewrite (filter_cons_True _ m) by done.
    + intros id. rewrite Hiff, Happ. set_solver.
    + intros _. apply Htr. unfold is_Some. rewrite Ha. eauto.
Qed.

(** A pass over steps that are all applied looks each of them up and
    does nothing else. *)
Lemma migrateLoop_all_applied s ms : ∀ w,
  faults w = [] →
  (∀ m, m ∈ ms → applied (committed w) (ID m)) →
  ∃ o, migrateLoop engine s ms w =
         (mkWorld (committed w) (txs w) []
            (trace w ++ ((λ m, EvDbGet selectSQL [ID m]) <$> ms)) o,
          Val None).
Proof.
  induction ms as [|m ms IH]; intros w Hf Happ; simpl.
  { exists (out w). unfold ret. rewrite app_nil_r, <- Hf. by destruct w. }
  unfold bind at 1. rewrite db_Get_result.
  rewrite lookup_of_applied; [|done|apply Happ; by left].
  unfold bind at 1. rewrite printf_fst.
  match goal with |- context [migrateLoop _ _ _ ?w2] =>
    destruct (IH w2) as [o Ho] end.
  { simpl. by rewrite Hf. }
  { intros m' Hm'. apply Happ. by right. }
  exists o. rewrite Ho. simpl. by rewrite <- app_assoc.
Qed.

(** C7.  Take a registry with distinct ids whose actions leave the
    [migrations] table alone.  If [Migrate] returns nil, then every step
    is applied, and a second [Migrate] (with no driver failure injected)
    returns nil, leaves the committed store, hence the tracker table,
    unchanged, and only looks every step up, invoking no action.  Over
    the two calls the apply actions invoked are those of the steps that
    were not applied before, each exactly once and in order: on a
    database where none was applied, every step of the registry exactly
    once. *)
Theorem Migrate_idempotent (s : Sqlx) (w w1 : World U) :
  NoDup (ID <$> Migrations s) →
  Forall (step_safe engine) (Migrations s) →
  Sqlx_Migrate engine s w = (w1, Val None) →
  faults w1 = [] →
  let '(w2, r) := Sqlx_Migrate engine s w1 in
  r = Val None ∧
  committed w2 = committed w1 ∧
  since w1 w2 =
    EvDbExec createTableSQL []
      :: ((λ m, EvDbGet selectSQL [ID m]) <$> Migrations s) ∧
  applies (since w1 w2) = [] ∧
  applies (since w w2) = ID <$> pending (committed w) (Migrations s) ∧
  ((∀ m, m ∈ Migrations s → ¬ applied (committed w) (ID m)) →
   applies (since w w2) = ID <$> Migrations s) ∧
  (∀ m, m ∈ Migrations s → applied (committed w1) (ID m)).
Proof.
  intros Hnd Hsafe H1 Hf1.
  (* the first call *)
  rewrite Sqlx_Migrate_unfold in H1.
  set (w0 := (printf s _ w).1) in H1.
  assert (Ht0 : trace w0 = trace w) by done.
  assert (Hc0 : committed w0 = committed w) by done.
  clearbody w0.
  destruct (createMigrationTable engine s w0) as [wc [[|]|]] eqn:Hc; try done.
  rewrite createMigrationTable_result in Hc.
  assert (Hwc : trace wc = trace w ++ [EvDbExec createTableSQL []] ∧
                is_Some (tracker (committed wc)) ∧
                ∀ id, applied (committed wc) id ↔ applied (committed w) id).
  { destruct (faults w0) as [|[] ?]; simplify_eq; simpl; rewrite Ht0, <- Hc0.
    all: split; [done|].
    all: unfold applied; destruct (tracker (committed w0)) eqn:E; simpl;
      rewrite ?E; split; eauto; try done.
    all: intros id; set_solver. }
  destruct Hwc as (Htc & Htr & Hiffc).
  pose proof (migrateLoop_in_order s (Migrations s) wc) as Hrel.
  rewrite H1 in Hrel.
  apply apply_in_order_success in Hrel as (evs & Ht & Hap & Hiff & Htr1);
    try done.
  rewrite (pending_ext _ (committed w)) in Hap by (intros; apply Hiffc).
  simpl in Ht, Hiff, Htr1. specialize (Htr1 Htr).
  assert (Hall : ∀ m, m ∈ Migrations s → applied (committed w1) (ID m)).
  { intros m Hm. apply Hiff. right. by apply list_elem_of_fmap_2. }
  (* the second call *)
  rewrite Sqlx_Migrate_unfold.
  set (w1' := (printf s _ w1).1).
  assert (Ht1 : trace w1' = trace w1) by done.
  assert (Hc1 : committed w1' = committed w1) by done.
  assert (Hf1' : faults w1' = []) by done.
  clearbody w1'.
  rewrite createMigrationTable_result, Hf1'. simpl tail.
  destruct Htr1 as [rows Hrows]. rewrite Hc1, Hrows.
  match goal with |- context [migrateLoop _ _ _ ?w2] =>
    destruct (migrateLoop_all_applied s (Migrations s) w2) as [o Ho] end;
    [done| done |].
  rewrite Ho. simpl. rewrite Ht1.
  assert (Hnone : ∀ l : list SqlxMigration,
             applies ((λ m, EvDbGet selectSQL [ID m]) <$> l) = [])
    by (induction l; done).
  assert (Hboth : ∀ w2 : World U,
            trace w2 = (trace w1 ++ [EvDbExec createTableSQL []]) ++
                       ((λ m, EvDbGet selectSQL [ID m]) <$> Migrations s) →
            applies (since w w2) = ID <$> pending (committed w) (Migrations s)).
  { intros w2 Ht2. erewrite since_ext.
    2: { rewrite Ht2, Ht, Htc, <- !app_assoc. done. }
    rewrite !applies_app, Hap. simpl. by rewrite Hnone, app_nil_r. }
  split_and!; try done.
  - apply since_ext. simpl. by rewrite <- app_assoc.
  - erewrite since_ext; [|simpl; by rewrite <- app_assoc].
    rewrite applies_app. simpl. apply Hnone.
  - by apply Hboth.
  - intros Hfresh. rewrite Hboth by done. by rewrite pending_all.
Qed.
End Proofs.

(** ** The step builders *)

Section Builders.
Lemma queryFn_nil (query : string) : queryFn query = None ↔ query = "".
Proof. unfold queryFn. case_decide; split; done. Qed.

Lemma queryFn_exec (query : string) :
  query ≠ "" → queryFn query = Some (Exec query [] Ret).
Proof. unfold queryFn. intros. by rewrite decide_False. Qed.

Lemma run_Exec_Ret {U} (engine : Engine U) q tx (w : World U) :
  run engine (Exec q [] Ret) tx w = tx_Exec engine tx q [] w.
Proof.
  simpl. unfold bind, tx_Exec.
  destruct (view tx _); [|done].
  destruct (next_fault _) as [[] ?]; [done|].
  by destruct (exec engine q [] _).
Qed.

(** C8.  [SqlxQueryMigration] keeps the id; its apply (reverse) action is
    nil exactly when the up (down) query is the empty string, and for any
    other text the action is the one that sends exactly that text, with
    no arguments, on the transaction it is handed and returns the error
    of that statement. *)
Theorem SqlxQueryMigration_actions (id upQuery downQuery : string) :
  let m := SqlxQueryMigration id upQuery downQuery in
  ID m = id ∧
  (Migrate m = None ↔ upQuery = "") ∧
  (Rollback m = None ↔ downQuery = "") ∧
  (upQuery ≠ "" → Migrate m = Some (Exec upQuery [] Ret)) ∧
  (downQuery ≠ "" → Rollback m = Some (Exec downQuery [] Ret)) ∧
  (∀ U (engine : Engine U) (tx : Tx) (w : World U),
     (upQuery ≠ "" →
      call engine (Migrate m) tx w = tx_Exec engine tx upQuery [] w) ∧
     (downQuery ≠ "" →
      call engine (Rollback m) tx w = tx_Exec engine tx downQuery [] w)).
Proof.
  simpl. split_and!; auto using queryFn_nil, queryFn_exec.
  intros U engine tx w.
  split; intros Hq; rewrite queryFn_exec by done; apply run_Exec_Ret.
Qed.

Lemma fileFn_empty fs : fileFn "" fs = (fs, Val None).
Proof. done. Qed.

(** What [fileFn] does with a path that is not empty. *)
Lemma fileFn_path filename fs :
  filename ≠ "" →
  fileFn filename fs =
    (mkFS (files fs) (opened fs ++ [filename]),
     match files fs !! filename with
     | Some (Readable content) => Val (Some (Exec content [] Ret))
     | Some (Unreadable err) => Panic err
     | None => Panic (PathError "open" filename)
     end).
Proof.
  intros Hne. unfold fileFn, os_Open. rewrite decide_False by done.
  by destruct (files fs !! filename) as [[]|].
Qed.

Lemma fileFn_result filename fs :
  ∃ r, fileFn filename fs =
         (mkFS (files fs) (opened fs ++ touched filename), r) ∧
       match r with
       | Val None => filename = ""
       | Val (Some act) =>
           filename ≠ "" ∧
           ∃ content, files fs !! filename = Some (Readable content) ∧
                      act = Exec content [] Ret
       | Panic v =>
           filename ≠ "" ∧ ¬ readable fs filename ∧
           read_error fs filename v
       end.
Proof.
  unfold touched, readable, read_error.
  destruct (decide (filename = "")) as [->|Hne].
  - exists (Val None). rewrite fileFn_empty, app_nil_r. by destruct fs.
  - rewrite fileFn_path by done. eexists; split; [done|].
    destruct (files fs !! filename) as [[c|e]|] eqn:E; naive_solver.
Qed.

(** C9.  [SqlxFileMigration] opens and reads the named files while the
    step is built.  If a path that is not empty cannot be opened or read,
    the constructor panics with that error and returns no step.  When it
    returns a step, every path that is not empty has been opened, and the
    action for it sends the content the file had at that moment: the
    action is a closed value, it holds the text and reads nothing when it
    runs. *)
Theorem SqlxFileMigration_reads_eagerly
    (id upFile downFile : string) (fs : FS) :
  let '(fs', r) := SqlxFileMigration id upFile downFile fs in
  files fs' = files fs ∧
  match r with
  | Val m =>
      ID m = id ∧
      opened fs' = opened fs ++ touched upFile ++ touched downFile ∧
      (upFile ≠ "" →
       ∃ content, files fs !! upFile = Some (Readable content) ∧
                  Migrate m = Some (Exec content [] Ret)) ∧
      (downFile ≠ "" →
       ∃ content, files fs !! downFile = Some (Readable content) ∧
                  Rollback m = Some (Exec content [] Ret))
  | Panic v =>
      (upFile ≠ "" ∧ read_error fs upFile v ∧
       opened fs' = opened fs ++ [upFile]) ∨
      (downFile ≠ "" ∧ read_error fs downFile v ∧
       opened fs' = opened fs ++ touched upFile ++ [downFile])
  end ∧
  (upFile ≠ "" ∧ ¬ readable fs upFile ∨
   downFile ≠ "" ∧ ¬ readable fs downFile →
   ∃ v, r = Panic v).
Proof.
  unfold SqlxFileMigration.
  destruct (fileFn_result upFile fs) as (ru & -> & Hu).
  destruct ru as [up|v].
  2: { destruct Hu as (Hne & Hnr & He). unfold touched.
       rewrite decide_False by done. simpl. split_and!; eauto. }
  match goal with |- context [fileFn downFile ?fs1] =>
    destruct (fileFn_result downFile fs1) as (rd & -> & Hd) end.
  simpl in *. rewrite <- app_assoc.
  assert (Hrd : ∀ path, readable (mkFS (files fs) (opened fs ++ touched upFile)) path
                        ↔ readable fs path) by done.
  destruct rd as [down|v]; simpl.
  - split_and!; try done.
    + intros Hne. destruct up; naive_solver.
    + intros Hne. destruct down; naive_solver.
    + unfold readable. destruct up, down; naive_solver.
  - destruct Hd as (Hne & Hnr & He).
    split_and!; eauto. right. unfold touched at 2.
    rewrite decide_False by done. done.
Qed.

(** C10.  For an empty path [fileFn] returns nil and leaves the file
    system, the record of opened paths included, as it was.  So
    [SqlxFileMigration] with an empty up (down) path touches the files of
    the other direction only and yields a nil apply (reverse) action;
    with both paths empty it cannot panic; and a readable file in one
    direction with an empty path in the other gives a step with that one
    action. *)
Theorem SqlxFileMigration_empty_path_is_nil (id : string) (fs : FS) :
  fileFn "" fs = (fs, Val None) ∧
  SqlxFileMigration id "" "" fs = (fs, Val (mkSqlxMigration id None None)) ∧
  (∀ downFile,
     let '(fs', r) := SqlxFileMigration id "" downFile fs in
     fs' = (fileFn downFile fs).1 ∧ ∀ m, r = Val m → Migrate m = None) ∧
  (∀ upFile,
     let '(fs', r) := SqlxFileMigration id upFile "" fs in
     fs' = (fileFn upFile fs).1 ∧ ∀ m, r = Val m → Rollback m = None) ∧
  (∀ path content,
     path ≠ "" → files fs !! path = Some (Readable content) →
     SqlxFileMigration id path "" fs =
       (mkFS (files fs) (opened fs ++ [path]),
        Val (mkSqlxMigration id (Some (Exec content [] Ret)) None)) ∧
     SqlxFileMigration id "" path fs =
       (mkFS (files fs) (opened fs ++ [path]),
        Val (mkSqlxMigration id None (Some (Exec content [] Ret))))).
Proof.
  split_and!; try done.
  - intros downFile. unfold SqlxFileMigration. rewrite fileFn_empty.
    destruct (fileFn downFile fs) as [fs' [down|v]]; split; try done.
    by intros m [= <-].
  - intros upFile. unfold SqlxFileMigration.
    destruct (fileFn upFile fs) as [fs' [up|v]]; [|done].
    rewrite fileFn_empty. split; [done|]. by intros m [= <-].
  - intros path content Hne Hread. unfold SqlxFileMigration.
    rewrite fileFn_empty, fileFn_path, Hread by done. by rewrite fileFn_empty.
Qed.
End Builders.

(** ** The scenario of the specification, run *)

Section Checks.
Import Scenario.

Ltac evaluate :=
  first [ vm_compute; reflexivity
        | vm_compute; discriminate
        | apply (bool_decide_unpack _); vm_compute; exact I ].

Lemma engine_keeps_tracker q args :
  q ≠ createTableSQL → q ≠ insertSQL → q ≠ deleteSQL →
  keeps_tracker engine q args.
Proof.
  intros H1 H2 H3 st st'. unfold exec.
  rewrite !decide_False by done.
  unfold engine, create, drop_table.
  repeat case_decide; intros [= <-]; done.
Qed.

Lemma scenario_steps_safe : Forall (step_safe engine) [courses; users].
Proof.
  repeat constructor; intros f [= <-];
    (constructor; [by apply engine_keeps_tracker | constructor]).
Qed.

(** The tests of the repository, run on the model. *)
Example test_simple :
  let o := Sqlx_Migrate engine (registry [courses]) (fresh []) in
  o.2 = Val None ∧ "courses" ∈ schema (committed o.1).
Proof. split; evaluate. Qed.

Example test_existing_migrations :
  let w1 := (Sqlx_Migrate engine (registry [courses]) (fresh [])).1 in
  let o := Sqlx_Migrate engine (registry [courses; users]) w1 in
  o.2 = Val None ∧ applies (since w1 o.1) = ["002_create_users"] ∧
  "users" ∈ schema (committed o.1).
Proof. split_and!; evaluate. Qed.

Example test_rollback :
  let s := registry [courses] in
  let w1 := (Sqlx_Migrate engine s (fresh [])).1 in
  let w2 := (Sqlx_Rollback engine s w1).1 in
  let o := Sqlx_Migrate engine s w2 in
  (Sqlx_Rollback engine s w1).2 = Val None ∧
  "courses" ∉ schema (committed w2) ∧
  ¬ applied (committed w2) "001_create_courses" ∧
  o.2 = Val None ∧ committed o.1 = committed w1.
Proof. split_and!; evaluate. Qed.

Example test_file :
  let o := SqlxFileMigration "001_create_courses"
             "migrations/001_courses.up.sql" "" disk in
  o.2 = Val (SqlxQueryMigration "001_create_courses" createCourses "") ∧
  opened o.1 = ["migrations/001_courses.up.sql"].
Proof. split; evaluate. Qed.

Example test_file_missing :
  (SqlxFileMigration "002_create_users" "" "migrations/002.down.sql" disk).2
  = Panic (PathError "open" "migrations/002.down.sql") ∧
  (SqlxFileMigration "003_locked" "migrations/locked.sql" "" disk).2
  = Panic (PathError "read" "migrations/locked.sql").
Proof. split; evaluate. Qed.

(** C2.  The two variants of [runMigration] part ways on a step whose
    action fails, here on a database that has the empty tracker table.
    Both return the same error.  The current variant leaves the committed
    store as it was.  The earlier variant sends the insert through
    [db.Exec], outside the transaction it has just begun, so the tracker
    row of the step stays committed although the step was rolled back: a
    second [Migrate] of the earlier variant finds the row, skips the step
    and returns nil, while the current variant fails again. *)
Theorem variants_differ_on_failing_action :
  let w := ready [] in
  let s := registry [broken] in
  let new := runMigration engine s broken w in
  let old := Old.runMigration engine (as_old_sqlx s) (as_old broken) w in
  new.2 = Val (Some (Errorf "running migration" (DriverError "syntax error"))) ∧
  old.2 = new.2 ∧
  committed new.1 = committed w ∧
  ¬ applied (committed new.1) (ID broken) ∧
  applied (committed old.1) (ID broken) ∧
  schema (committed old.1) = schema (committed w) ∧
  (Old.Sqlx_Migrate engine (as_old_sqlx s) old.1).2 = Val None ∧
  applies (since old.1 (Old.Sqlx_Migrate engine (as_old_sqlx s) old.1).1) = [] ∧
  (Sqlx_Migrate engine s new.1).2 = new.2.
Proof.
  intros w s new old. split_and!; evaluate.
Qed.

Lemma Migrate_aborts_witness :
  let s := registry [courses; broken; users] in
  let w := fresh [] in
  let w1 := (Sqlx_Migrate engine (registry [courses]) w).1 in
  let w2 := (db_Get selectSQL [ID broken] w1).1 in
  let o := runMigration engine s broken
             (printf s ("Running migration: " +:+ ID broken +:+ nl) w2).1 in
  Sqlx_Migrate engine s w = (o.1, o.2) ∧
  committed o.1 = committed w1 ∧
  (∀ id, applied (committed w1) id → applied (committed o.1) id) ∧
  lookups (since w o.1) = ID <$> ([courses] ++ [broken]) ∧
  applies (since w1 o.1) `prefix_of` [ID broken].
Proof.
  intros s w w1 w2 o.
  apply (Migrate_aborts_at_first_failure engine None [courses] [users] broken
           w w1 w2 o.1 o.2); evaluate.
Defined.

Lemma Migrate_idempotent_witness :
  let s := registry [courses; users] in
  let w := fresh [] in
  let w1 := (Sqlx_Migrate engine s w).1 in
  let '(w2, r) := Sqlx_Migrate engine s w1 in
  r = Val None ∧
  committed w2 = committed w1 ∧
  since w1 w2 =
    EvDbExec createTableSQL []
      :: ((λ m, EvDbGet selectSQL [ID m]) <$> Migrations s) ∧
  applies (since w1 w2) = [] ∧
  applies (since w w2) = ID <$> pending (committed w) (Migrations s) ∧
  ((∀ m, m ∈ Migrations s → ¬ applied (committed w) (ID m)) →
   applies (since w w2) = ID <$> Migrations s) ∧
  (∀ m, m ∈ Migrations s → applied (committed w1) (ID m)).
Proof.
  intros s w w1.
  apply (Migrate_idempotent engine s w w1).
  - evaluate.
  - exact scenario_steps_safe.
  - evaluate.
  - evaluate.
Defined.
End Checks.

(** * Further properties *)

(** ** Errors, open transactions, panics and the reporting hook *)

Section Outcomes.
Context {U : Type} (engine : Engine U).
Implicit Types (w : World U) (v st : Store U) (g : TxFunc) (f : option TxFunc) (tx : Tx).

Lemma transaction_error stmt ev prefix id f w w' e :
  transaction_result engine stmt ev prefix id f w = (w', Val (Some e)) →
  in_context prefix e.
Proof.
  unfold transaction_result, in_context. intros H.
  repeat case_match; simplify_eq; eauto.
Qed.

Lemma apply_in_order_errors s ms w o :
  apply_in_order engine s ms w o →
  match o.2 with
  | Val (Some e) =>
      in_context "looking up migration by id" e ∨
      in_context "running migration" e
  | _ => True
  end.
Proof.
  induction 1 as [w|m ms w w1 o Hg _ IH|m ms w w1 w2 o Hg Hr _ IH
                  |m ms w w1 w2 r Hg Hr Hne|m ms w w1 err Hg Hne]; simpl;
    try done.
  - destruct r as [[e|]|]; try done. right.
    rewrite runMigration_result in Hr. by eapply transaction_error.
  - left. by eexists.
Qed.

(** X1.  Every error [Migrate] returns is wrapped with the context of the
    place it came from: creating the tracker table, looking a step up, or
    running a step.  No error of the driver or of an action is returned
    bare. *)
Theorem Migrate_errors_carry_context (s : Sqlx) (w : World U) :
  match (Sqlx_Migrate engine s w).2 with
  | Val (Some e) =>
      in_context "creating migrations table" e ∨
      in_context "looking up migration by id" e ∨
      in_context "running migration" e
  | _ => True
  end.
Proof.
  rewrite Sqlx_Migrate_unfold.
  set (w0 := (printf s _ w).1). clearbody w0.
  rewrite createMigrationTable_result.
  destruct (faults w0) as [|[] ?]; simpl.
  2: { left. by eexists. }
  all: match goal with |- context [migrateLoop _ _ _ ?w1] =>
         pose proof (apply_in_order_errors _ _ _ _
                       (migrateLoop_in_order engine s (Migrations s) w1)) as H
       end.
  all: destruct (migrateLoop _ _ _ _) as [w' [[e|]|]]; simpl in *; tauto.
Qed.

Lemma rollback_in_order_errors s ms w o :
  rollback_in_order engine s ms w o →
  match o.2 with
  | Val (Some e) =>
      in_context "looking up rollback by id" e ∨
      in_context "running rollback" e
  | _ => True
  end.
Proof.
  induction 1 as [w|m ms w o Hn _ IH|m ms w w1 o Hy Hg _ IH
                  |m ms w w1 w2 o Hy Hg Hr _ IH
                  |m ms w w1 w2 r Hy Hg Hr Hne|m ms w w1 err Hy Hg Hne];
    simpl; try done.
  - destruct r as [[e|]|]; try done. right.
    rewrite runRollback_result in Hr. by eapply transaction_error.
  - left. by eexists.
Qed.

Lemma Sqlx_Rollback_unfold s w :
  Sqlx_Rollback engine s w =
    match createMigrationTable engine s
            (printf s ("Creating/checking migrations table..." +:+ nl) w).1
    with
    | (wc, Val None) => rollbackLoop engine s (length (Migrations s)) wc
    | (wc, Val (Some err)) => (wc, Val (Some err))
    | (wc, Panic x) => (wc, Panic x)
    end.
Proof.
  unfold Sqlx_Rollback, bind. rewrite printf_fst.
  by destruct (createMigrationTable _ _ _) as [wc [[|]|]].
Qed.

Lemma rollbackLoop_all_in_order s w :
  rollback_in_order engine s (reverse (Migrations s)) w
    (rollbackLoop engine s (length (Migrations s)) w).
Proof.
  pose proof (rollbackLoop_in_order engine s (length (Migrations s)) w) as H.
  rewrite firstn_all in H. by apply H.
Qed.

(** X2.  Every error [Rollback] returns is wrapped with the context of the
    place it came from: creating the tracker table, looking a step up, or
    running its reverse action. *)
Theorem Rollback_errors_carry_context (s : Sqlx) (w : World U) :
  match (Sqlx_Rollback engine s w).2 with
  | Val (Some e) =>
      in_context "creating migrations table" e ∨
      in_context "looking up rollback by id" e ∨
      in_context "running rollback" e
  | _ => True
  end.
Proof.
  rewrite Sqlx_Rollback_unfold.
  set (w0 := (printf s _ w).1). clearbody w0.
  rewrite createMigrationTable_result.
  destruct (faults w0) as [|[] ?]; simpl.
  2: { left. by eexists. }
  all: match goal with |- context [rollbackLoop _ _ _ ?w1] =>
         pose proof (rollback_in_order_errors _ _ _ _
                       (rollbackLoop_all_in_order s w1)) as H
       end.
  all: destruct (rollbackLoop _ _ _ _) as [w' [[e|]|]]; simpl in *; tauto.
Qed.

(** *** Transactions left open *)

Lemma transaction_txs stmt ev prefix id f w w' e :
  transaction_result engine stmt ev prefix id f w = (w', Val e) →
  txs w' = txs w ∨ txs w' = txs w ++ [None].
Proof.
  unfold transaction_result. intros H.
  repeat case_match; simplify_eq; auto.
Qed.

Lemma closed_more (l : list (option (Store U))) n :
  (l ++ replicate n None) ++ [None] = l ++ replicate (S n) None.
Proof.
  rewrite <- app_assoc. f_equal.
  change [None] with (replicate 1 (@None (Store U))).
  rewrite <- replicate_add. f_equal. lia.
Qed.

Lemma apply_in_order_txs s ms w o :
  apply_in_order engine s ms w o →
  match o.2 with
  | Val _ => ∃ n, txs o.1 = txs w ++ replicate n None
  | Panic _ => True
  end.
Proof.
  induction 1 as [w|m ms w w1 o Hg _ IH|m ms w w1 w2 o Hg Hr _ IH
                  |m ms w w1 w2 r Hg Hr Hne|m ms w w1 err Hg Hne]; simpl.
  - exists 0. simpl. by rewrite app_nil_r.
  - apply db_Get_frame in Hg as (_ & _ & Htx & _).
    destruct (o.2); [|done]. destruct IH as [n Hn]. exists n.
    rewrite Hn. simpl. by rewrite Htx.
  - apply db_Get_frame in Hg as (_ & _ & Htx & _).
    rewrite runMigration_result in Hr.
    apply transaction_txs in Hr. simpl in Hr. rewrite Htx in Hr.
    destruct (o.2); [|done]. destruct IH as [n Hn].
    destruct Hr as [Hr|Hr]; rewrite Hn, Hr.
    + by exists n.
    + exists (S n). by rewrite <- app_assoc.
  - apply db_Get_frame in Hg as (_ & _ & Htx & _).
    destruct r as [e|]; [|done].
    rewrite runMigration_result in Hr.
    apply transaction_txs in Hr. simpl in Hr. rewrite Htx in Hr.
    destruct Hr as [->| ->]; [exists 0|exists 1]; simpl; by rewrite ?app_nil_r.
  - apply db_Get_frame in Hg as (_ & _ & Htx & _).
    exists 0. simpl. by rewrite app_nil_r.
Qed.

Lemma refresh_open q args (l : list (option (Store U))) n (tx : nat) :
  is_Some (mjoin (((refresh engine q args <$> l) ++ replicate n None) !! tx)) →
  is_Some (mjoin (l !! tx)).
Proof.
  intros [v Hv].
  destruct (decide (tx < length l)) as [Hlt|Hge].
  - rewrite lookup_app_l in Hv; [|rewrite length_fmap; lia].
    rewrite list_lookup_fmap in Hv.
    destruct (l !! tx) as [[x|]|] eqn:E; simpl in Hv; [by eexists|done..].
  - rewrite lookup_app_r in Hv; [|rewrite length_fmap; lia].
    destruct (replicate n None !! _) as [x|] eqn:E; [|done].
    apply lookup_replicate in E as [-> _]. done.
Qed.

Lemma closed_open (l : list (option (Store U))) n (tx : nat) :
  is_Some (mjoin ((l ++ replicate n None) !! tx)) →
  is_Some (mjoin (l !! tx)).
Proof.
  intros [v Hv].
  destruct (decide (tx < length l)) as [Hlt|Hge].
  - rewrite lookup_app_l in Hv by done. by rewrite Hv.
  - rewrite lookup_app_r in Hv by lia.
    destruct (replicate n None !! _) as [x|] eqn:E; [|done].
    apply lookup_replicate in E as [-> _]. done.
Qed.

(** X3.  When [Migrate] returns (with nil or with an error) every
    transaction that is open afterwards was open before the call: each
    transaction the call began has been committed or rolled back. *)
Theorem Migrate_leaves_no_transaction_open (s : Sqlx) (w : World U) :
  let '(w', r) := Sqlx_Migrate engine s w in
  match r with
  | Val _ => ∀ tx, is_Some (view tx w') → is_Some (view tx w)
  | Panic _ => True
  end.
Proof.
  rewrite Sqlx_Migrate_unfold.
  set (w0 := (printf s _ w).1).
  assert (Htx0 : txs w0 = txs w) by done. clearbody w0.
  rewrite createMigrationTable_result.
  destruct (faults w0) as [|[] ?]; simpl.
  2: { intros tx. unfold view; simpl. by rewrite Htx0. }
  all: match goal with |- context [migrateLoop _ _ _ ?w1] =>
         pose proof (apply_in_order_txs _ _ _ _
                       (migrateLoop_in_order engine s (Migrations s) w1)) as H
       end.
  all: destruct (migrateLoop _ _ _ _) as [w' [e|]]; simpl in *; [|done].
  all: destruct H as [n Hn]; intros tx; unfold view.
  all: rewrite Hn, Htx0; apply refresh_open.
Qed.

Lemma rollback_in_order_txs s ms w o :
  rollback_in_order engine s ms w o →
  match o.2 with
  | Val _ => ∃ n, txs o.1 = txs w ++ replicate n None
  | Panic _ => True
  end.
Proof.
  induction 1 as [w|m ms w o Hn _ IH|m ms w w1 o Hy Hg _ IH
                  |m ms w w1 w2 o Hy Hg Hr _ IH
                  |m ms w w1 w2 r Hy Hg Hr Hne|m ms w w1 err Hy Hg Hne];
    simpl.
  - exists 0. simpl. by rewrite app_nil_r.
  - done.
  - apply db_Get_frame in Hg as (_ & _ & Htx & _).
    destruct (o.2); [|done]. destruct IH as [n Hn]. exists n.
    rewrite Hn. simpl. by rewrite Htx.
  - apply db_Get_frame in Hg as (_ & _ & Htx & _).
    rewrite runRollback_result in Hr.
    apply transaction_txs in Hr. simpl in Hr. rewrite Htx in Hr.
    destruct (o.2); [|done]. destruct IH as [n Hn].
    destruct Hr as [Hr|Hr]; rewrite Hn, Hr.
    + by exists n.
    + exists (S n). by rewrite <- app_assoc.
  - apply db_Get_frame in Hg as (_ & _ & Htx & _).
    destruct r as [e|]; [|done].
    rewrite runRollback_result in Hr.
    apply transaction_txs in Hr. simpl in Hr. rewrite Htx in Hr.
    destruct Hr as [->| ->]; [exists 0|exists 1]; simpl; by rewrite ?app_nil_r.
  - apply db_Get_frame in Hg as (_ & _ & Htx & _).
    exists 0. simpl. by rewrite app_nil_r.
Qed.

(** X4.  When [Rollback] returns (with nil or with an error) every
    transaction that is open afterwards was open before the call. *)
Theorem Rollback_leaves_no_transaction_open (s : Sqlx) (w : World U) :
  let '(w', r) := Sqlx_Rollback engine s w in
  match r with
  | Val _ => ∀ tx, is_Some (view tx w') → is_Some (view tx w)
  | Panic _ => True
  end.
Proof.
  rewrite Sqlx_Rollback_unfold.
  set (w0 := (printf s _ w).1).
  assert (Htx0 : txs w0 = txs w) by done. clearbody w0.
  rewrite createMigrationTable_result.
  destruct (faults w0) as [|[] ?]; simpl.
  2: { intros tx. unfold view; simpl. by rewrite Htx0. }
  all: match goal with |- context [rollbackLoop _ _ _ ?w1] =>
         pose proof (rollback_in_order_txs _ _ _ _
                       (rollbackLoop_all_in_order s w1)) as H
       end.
  all: destruct (rollbackLoop _ _ _ _) as [w' [e|]]; simpl in *; [|done].
  all: destruct H as [n Hn]; intros tx; unfold view.
  all: rewrite Hn, Htx0; apply refresh_open.
Qed.

(** *** Panics *)

Lemma action_effect_no_crash g :
  no_crash g → ∀ fs v, ∃ e, (action_effect engine g fs v).2 = Val e.
Proof.
  induction 1 as [err|q args k _ IH]; intros fs v; simpl; [by eexists|].
  destruct (stmt_effect engine q args fs v) as [[v1 fs1] err].
  destruct (IH err fs1 v1) as [e He].
  destruct (action_effect engine (k err) fs1 v1) as [[[v2 fs2] st2] r2].
  simpl in *. by eexists.
Qed.

Lemma transaction_returns stmt ev prefix id g w :
  no_crash g →
  ∃ e, (transaction_result engine stmt ev prefix id (Some g) w).2 = Val e.
Proof.
  intros Hg. unfold transaction_result.
  destruct (faults w) as [|[] fs0]; [|by eexists|].
  all: destruct (stmt_effect engine stmt [id] _ (committed w))
         as [[v1 fs1] [e|]]; simpl; try by eexists.
  all: destruct (action_effect_no_crash g Hg fs1 v1) as [e He].
  all: destruct (action_effect engine g fs1 v1) as [[[v2 fs2] stmts] r];
    simpl in He; subst r.
  all: destruct e; simpl; try by eexists.
  all: destruct fs2 as [|[] ?]; by eexists.
Qed.

Lemma apply_in_order_returns s ms w o :
  apply_in_order engine s ms w o →
  Forall (λ m, ∃ g, Migrate m = Some g ∧ no_crash g) ms →
  ∃ e, o.2 = Val e.
Proof.
  induction 1 as [w|m ms w w1 o Hg _ IH|m ms w w1 w2 o Hg Hr _ IH
                  |m ms w w1 w2 r Hg Hr Hne|m ms w w1 err Hg Hne];
    simpl; intros Hall; try by eexists.
  - apply IH. by eapply Forall_cons_1.
  - apply IH. by eapply Forall_cons_1.
  - apply Forall_cons_1 in Hall as [(g & Hm & Hnc) _].
    rewrite runMigration_result, Hm in Hr.
    destruct (transaction_returns insertSQL (EvApply (ID m))
                "running migration" (ID m) g
                (printf s ("Running migration: " +:+ ID m +:+ nl) w1).1 Hnc)
      as [e He].
    rewrite Hr in He. by eexists.
Qed.

(** X5.  [Migrate] panics only through a step: when every step of the
    registry has an apply action and none of these actions panics,
    [Migrate] returns (nil or an error) on every database and under every
    pattern of connection failures. *)
Theorem Migrate_returns_when_actions_do (s : Sqlx) (w : World U) :
  Forall (λ m, ∃ g, Migrate m = Some g ∧ no_crash g) (Migrations s) →
  ∃ e, (Sqlx_Migrate engine s w).2 = Val e.
Proof.
  intros Hall. rewrite Sqlx_Migrate_unfold.
  destruct (createMigrationTable engine s _) as [wc chk] eqn:Hc.
  rewrite createMigrationTable_result in Hc.
  destruct (faults _) as [|[] ?]; simplify_eq; simpl; try by eexists.
  all: eapply apply_in_order_returns; [apply migrateLoop_in_order|done].
Qed.

Lemma rollback_in_order_returns s ms w o :
  rollback_in_order engine s ms w o →
  Forall (λ m, ∀ g, Rollback m = Some g → no_crash g) ms →
  ∃ e, o.2 = Val e.
Proof.
  induction 1 as [w|m ms w o Hn _ IH|m ms w w1 o Hy Hg _ IH
                  |m ms w w1 w2 o Hy Hg Hr _ IH
                  |m ms w w1 w2 r Hy Hg Hr Hne|m ms w w1 err Hy Hg Hne];
    simpl; intros Hall; try by eexists.
  - apply IH. by eapply Forall_cons_1.
  - apply IH. by eapply Forall_cons_1.
  - apply IH. by eapply Forall_cons_1.
  - apply Forall_cons_1 in Hall as [Hnc _].
    destruct Hy as [g Hm]. specialize (Hnc g Hm).
    rewrite runRollback_result, Hm in Hr.
    destruct (transaction_returns deleteSQL (EvReverse (ID m))
                "running rollback" (ID m) g
                (printf s ("Running rollback: " +:+ ID m +:+ nl) w1).1 Hnc)
      as [e He].
    rewrite Hr in He. by eexists.
Qed.

(** X6.  [Rollback] panics only through a reverse action: when no reverse
    action of the registry panics, [Rollback] returns on every database
    and under every pattern of connection failures.  A step without a
    reverse action is no obstacle, and the index into the registry is
    always in range. *)
Theorem Rollback_returns_when_actions_do (s : Sqlx) (w : World U) :
  Forall (λ m, ∀ g, Rollback m = Some g → no_crash g) (Migrations s) →
  ∃ e, (Sqlx_Rollback engine s w).2 = Val e.
Proof.
  intros Hall. rewrite Sqlx_Rollback_unfold.
  destruct (createMigrationTable engine s _) as [wc chk] eqn:Hc.
  rewrite createMigrationTable_result in Hc.
  destruct (faults _) as [|[] ?]; simplify_eq; simpl; try by eexists.
  all: eapply rollback_in_order_returns; [apply rollbackLoop_all_in_order|].
  all: by apply Forall_reverse.
Qed.

(** X7.  [runMigration] does not check the apply action for nil.  For a
    step without one (what [SqlxQueryMigration] builds from an empty
    query), on a database where the begin and the insert succeed, the call
    panics with a nil dereference after the insert: the committed store is
    unchanged, and the transaction is left open holding the tracker row,
    neither committed nor rolled back. *)
Theorem runMigration_nil_action_panics
    (s : Sqlx) (m : SqlxMigration) (w : World U) (rows : gset string) :
  Migrate m = None →
  true ∉ take 2 (faults w) →
  tracker (committed w) = Some rows →
  ID m ∉ rows →
  let '(w', r) := runMigration engine s m w in
  r = Panic nilDeref ∧
  committed w' = committed w ∧
  view (length (txs w)) w' =
    Some (mkStore (Some ({[ID m]} ∪ rows)) (schema (committed w))).
Proof.
  intros Hm Hf Hrows Hid. rewrite runMigration_result, Hm.
  unfold transaction_result, stmt_effect.
  rewrite exec_insert, Hrows, decide_False by done.
  destruct (faults w) as [|[] [|[] fs]]; simpl in *;
    try (exfalso; set_solver).
  all: split_and!; try done.
  all: unfold view; simpl; by rewrite list_lookup_middle.
Qed.

(** X8.  Running a step built by [SqlxQueryMigration] from a query that is
    not empty, with no connection failure: the result is nil exactly when
    the tracker insert and then the query succeed, and the committed store
    is then the store after both; when either fails, the error of the
    driver is returned wrapped and the committed store is unchanged. *)
Theorem runMigration_query_step
    (s : Sqlx) (id upQuery downQuery : string) (w : World U) :
  faults w = [] →
  upQuery ≠ "" →
  let '(w', r) :=
    runMigration engine s (SqlxQueryMigration id upQuery downQuery) w in
  match exec engine insertSQL [id] (committed w) with
  | inr e =>
      r = Val (Some (Errorf "running migration" e)) ∧
      committed w' = committed w
  | inl v1 =>
      match exec engine upQuery [] v1 with
      | inl v2 => r = Val None ∧ committed w' = v2
      | inr e =>
          r = Val (Some (Errorf "running migration" e)) ∧
          committed w' = committed w
      end
  end.
Proof.
  intros Hf Hup. rewrite runMigration_result. simpl.
  rewrite queryFn_exec by done.
  unfold transaction_result, stmt_effect. rewrite Hf. simpl.
  destruct (exec engine insertSQL [id] (committed w)) as [v1|e]; [|done].
  unfold stmt_effect. simpl.
  destruct (exec engine upQuery [] v1) as [v2|e]; done.
Qed.

(** *** The reporting hook *)

Lemma db_Get_out q args w o :
  db_Get q args (set_out o w) =
    (set_out o (db_Get q args w).1, (db_Get q args w).2).
Proof. by rewrite !db_Get_result. Qed.

Lemma transaction_out stmt ev prefix id f w o :
  transaction_result engine stmt ev prefix id f (set_out o w) =
    (set_out o (transaction_result engine stmt ev prefix id f w).1,
     (transaction_result engine stmt ev prefix id f w).2).
Proof.
  unfold transaction_result, set_out; cbn [committed txs faults trace out].
  destruct (faults w) as [|[] fs0]; [|done|].
  all: destruct (stmt_effect engine stmt [id] _ (committed w))
         as [[v1 fs1] [e|]]; [done|].
  all: destruct f as [g|]; [|done].
  all: destruct (action_effect engine g fs1 v1) as [[[v2 fs2] stmts] [[e|]|x]];
    try done.
  all: by destruct fs2 as [|[] ?].
Qed.

Lemma createMigrationTable_out s s' w o :
  createMigrationTable engine s' (set_out o w) =
    (set_out o (createMigrationTable engine s w).1,
     (createMigrationTable engine s w).2).
Proof.
  rewrite !createMigrationTable_result. unfold set_out; simpl.
  by destruct (faults w) as [|[] ?].
Qed.

Lemma printf_out s line w :
  ∃ o, (printf s line w).1 = set_out o w.
Proof. by eexists. Qed.

Lemma set_out_set_out o o' w : set_out o (set_out o' w) = set_out o w.
Proof. done. Qed.

Lemma migrateLoop_cons s m ms w :
  migrateLoop engine s (m :: ms) w =
    let w1 := (db_Get selectSQL [ID m] w).1 in
    match lookup_error selectSQL [ID m] w with
    | Some ErrNoRows =>
        match runMigration engine s m
                (printf s ("Running migration: " +:+ ID m +:+ nl) w1).1 with
        | (w2, Val None) => migrateLoop engine s ms w2
        | (w2, Val (Some err)) => (w2, Val (Some err))
        | (w2, Panic x) => (w2, Panic x)
        end
    | None =>
        migrateLoop engine s ms
          (printf s ("Skipping migration: " +:+ ID m +:+ nl) w1).1
    | Some err => (w1, Val (Some (Errorf "looking up migration by id" err)))
    end.
Proof.
  simpl. unfold bind at 1. rewrite db_Get_result. simpl.
  destruct (lookup_error selectSQL [ID m] w) as [[]|]; try done.
  unfold bind at 1. rewrite printf_fst. unfold bind.
  by destruct (runMigration engine s m _) as [w2 [[|]|]].
Qed.

Lemma set_out_id w : set_out (out w) w = w.
Proof. by destruct w. Qed.

Lemma migrateLoop_out s s' ms : ∀ w o o0,
  ∃ o', migrateLoop engine s' ms (set_out o w) =
          (set_out o' (migrateLoop engine s ms (set_out o0 w)).1,
           (migrateLoop engine s ms (set_out o0 w)).2).
Proof.
  induction ms as [|m ms IH]; intros w o o0; [by eexists|].
  rewrite !migrateLoop_cons. cbv zeta. rewrite !db_Get_out.
  replace (lookup_error selectSQL [ID m] (set_out o w))
    with (lookup_error selectSQL [ID m] w) by done.
  replace (lookup_error selectSQL [ID m] (set_out o0 w))
    with (lookup_error selectSQL [ID m] w) by done.
  cbn [fst].
  set (w1 := (db_Get selectSQL [ID m] w).1).
  destruct (lookup_error selectSQL [ID m] w) as [[]|]; try by eexists.
  - destruct (printf_out s' ("Running migration: " +:+ ID m +:+ nl)
                (set_out o w1)) as [o1 ->].
    destruct (printf_out s ("Running migration: " +:+ ID m +:+ nl)
                (set_out o0 w1)) as [o2 ->].
    rewrite !set_out_set_out.
    rewrite !runMigration_result, !transaction_out.
    destruct (transaction_result engine insertSQL _ _ _ _ w1)
      as [w2 [[e|]|x]]; cbn [fst snd]; try by eexists.
    apply IH.
  - destruct (printf_out s' ("Skipping migration: " +:+ ID m +:+ nl)
                (set_out o w1)) as [o1 ->].
    destruct (printf_out s ("Skipping migration: " +:+ ID m +:+ nl)
                (set_out o0 w1)) as [o2 ->].
    rewrite !set_out_set_out. apply IH.
Qed.

Lemma same_db_set_out o w : same_db (set_out o w) w.
Proof. done. Qed.

(** X9.  The reporting hook has no influence on what [Migrate] does: with
    any two hooks (given or nil) and any two output logs to start from,
    the two calls return the same result and leave the same committed
    store, open transactions, fault script and trace of database calls. *)
Theorem Migrate_ignores_Printf
    (ms : list SqlxMigration)
    (P P' : option (string → list string → list string))
    (w : World U) (o : list string) :
  let r := Sqlx_Migrate engine (mkSqlx ms P) w in
  let r' := Sqlx_Migrate engine (mkSqlx ms P') (set_out o w) in
  r'.2 = r.2 ∧ same_db r'.1 r.1.
Proof.
  intros r r'. subst r r'. rewrite !Sqlx_Migrate_unfold.
  destruct (printf_out (mkSqlx ms P')
              ("Creating/checking migrations table..." +:+ nl) (set_out o w))
    as [o1 ->].
  destruct (printf_out (mkSqlx ms P)
              ("Creating/checking migrations table..." +:+ nl) w)
    as [o2 ->].
  rewrite set_out_set_out.
  rewrite (createMigrationTable_out (mkSqlx ms P) (mkSqlx ms P') w o1).
  rewrite (createMigrationTable_out (mkSqlx ms P) (mkSqlx ms P) w o2).
  destruct (createMigrationTable engine (mkSqlx ms P) w) as [wc [[e|]|x]];
    cbn [fst snd]; try done.
  simpl Migrations.
  destruct (migrateLoop_out (mkSqlx ms P) (mkSqlx ms P') ms wc o1 o2)
    as [o' ->].
  done.
Qed.
End Outcomes.

(** ** Whole runs *)

Section Sequences.
Context {U : Type} (engine : Engine U).
Implicit Types (w : World U) (v st : Store U) (g : TxFunc) (f : option TxFunc) (tx : Tx).

Lemma filter_ext_elem {A} (P Q : A → Prop)
    `{∀ x, Decision (P x)} `{∀ x, Decision (Q x)} (l : list A) :
  (∀ x, x ∈ l → P x ↔ Q x) → filter P l = filter Q l.
Proof.
  induction l as [|x l IH]; intros Hl; [done|].
  rewrite !filter_cons.
  rewrite IH by (intros y Hy; apply Hl; by right).
  destruct (Hl x) as [H1 H2]; [by left|].
  repeat case_decide; tauto.
Qed.

Lemma filter_none {A} (P : A → Prop) `{∀ x, Decision (P x)} (l : list A) :
  (∀ x, x ∈ l → ¬ P x) → filter P l = [].
Proof.
  induction l as [|x l IH]; intros Hl; [done|].
  rewrite filter_cons_False by (apply Hl; by left).
  apply IH. intros y Hy. apply Hl. by right.
Qed.

Lemma NoDup_ID_inj (ms : list SqlxMigration) m m' :
  NoDup (ID <$> ms) → m ∈ ms → m' ∈ ms → ID m = ID m' → m = m'.
Proof.
  induction ms as [|x ms IH]; intros Hnd Hm Hm' Heq; [by inversion Hm|].
  simpl in Hnd. apply NoDup_cons in Hnd as [Hx Hnd].
  apply elem_of_cons in Hm as [->|Hm]; apply elem_of_cons in Hm' as [->|Hm'];
    try done.
  - destruct Hx. rewrite Heq. by apply list_elem_of_fmap_2.
  - destruct Hx. rewrite <- Heq. by apply list_elem_of_fmap_2.
  - by apply IH.
Qed.

Lemma reverses_app a b : reverses (a ++ b) = reverses a ++ reverses b.
Proof. unfold reverses. by rewrite bind_app. Qed.
Lemma reverses_cons ev l : reverses (ev :: l) = reverses [ev] ++ reverses l.
Proof. apply (reverses_app [ev] l). Qed.
Lemma reverses_tx_events tx stmts : reverses (tx_events tx stmts) = [].
Proof. induction stmts; [done|]. simpl. done. Qed.

Lemma createMigrationTable_ok s w wc :
  createMigrationTable engine s w = (wc, Val None) →
  trace wc = trace w ++ [EvDbExec createTableSQL []] ∧
  is_Some (tracker (committed wc)) ∧
  (∀ id, applied (committed wc) id ↔ applied (committed w) id) ∧
  schema (committed wc) = schema (committed w) ∧
  faults wc = tail (faults w) ∧
  (is_Some (tracker (committed w)) → committed wc = committed w).
Proof.
  rewrite createMigrationTable_result.
  destruct (faults w) as [|[] ?]; intros ?; simplify_eq; simpl.
  all: unfold applied; destruct (tracker (committed w)) eqn:E; simpl;
    rewrite ?E; split_and!; eauto; try done.
  all: try (intros id; set_solver).
  all: by intros [? ?].
Qed.

Lemma rollback_in_order_success s ms w o :
  rollback_in_order engine s ms w o →
  o.2 = Val None →
  NoDup (ID <$> ms) →
  Forall (reverse_safe engine) ms →
  ∃ evs, trace o.1 = trace w ++ evs ∧
         reverses evs = ID <$> reversible (committed w) ms ∧
         (∀ id, applied (committed o.1) id ↔
                applied (committed w) id ∧
                id ∉ ID <$> filter has_reverse ms) ∧
         (is_Some (tracker (committed w)) →
          is_Some (tracker (committed o.1))).
Proof.
  induction 1 as [w|m ms w o Hn _ IH|m ms w w1 o Hy Hg _ IH
                  |m ms w w1 w2 o Hy Hg Hr _ IH
                  |m ms w w1 w2 r Hy Hg Hr Hne|m ms w w1 err Hy Hg Hne];
    simpl; intros Ho Hnd Hsafe; try done.
  - exists []. rewrite app_nil_r. split_and!; try done.
    intros id. set_solver.
  - apply NoDup_cons in Hnd as [_ Hnd].
    apply Forall_cons in Hsafe as [_ Hsafe].
    destruct IH as (evs & Ht & Hrev & Hiff & Htr); try done.
    assert (Hno : ¬ has_reverse m) by (unfold has_reverse; rewrite Hn; by intros []).
    exists evs. simpl in *. split_and!; try done.
    + unfold reversible in *. by rewrite (filter_cons_False _ m) by tauto.
    + intros id. by rewrite (filter_cons_False _ m) by done.
  - pose proof (db_Get_sound (ID m) w) as Hsound. rewrite Hg in Hsound.
    destruct Hsound as [_ Hna].
    apply db_Get_frame in Hg as (Ht & Hc & _).
    apply NoDup_cons in Hnd as [_ Hnd].
    apply Forall_cons in Hsafe as [_ Hsafe].
    destruct IH as (evs & Ht' & Hrev & Hiff & Htr); try done.
    simpl in *. rewrite Hc in *.
    exists (EvDbGet selectSQL [ID m] :: evs). split_and!.
    + rewrite Ht', Ht, <- app_assoc. done.
    + unfold reversible in *. rewrite (filter_cons_False _ m) by tauto.
      rewrite <- Hrev. done.
    + intros id. rewrite Hiff, (filter_cons_True _ m) by done.
      rewrite fmap_cons, not_elem_of_cons.
      split; [|tauto]. intros [Ha Hni]. split_and!; try done.
      intros ->. done.
    + done.
  - pose proof (db_Get_sound (ID m) w) as Hsound. rewrite Hg in Hsound.
    simpl in Hsound.
    apply db_Get_frame in Hg as (Ht & Hc & _).
    rewrite runRollback_result in Hr.
    pose proof Hr as Hr'.
    apply transaction_success in Hr
      as (g & v1 & v2 & fs & stmts & Hf & Hx & Ha & Hc2 & Hs).
    apply transaction_trace in Hr' as (evs2 & Ht2 & _); [|done].
    simpl in Hc2, Hx.
    apply NoDup_cons in Hnd as [Hnotin Hnd].
    apply Forall_cons in Hsafe as [Hm Hsafe].
    apply action_effect_tracker in Ha; [|by apply Hm].
    rewrite exec_delete in Hx. rewrite Hc in Hx.
    destruct (tracker (committed w)) as [rows|] eqn:Hrows; [|done].
    simplify_eq. simpl in Ha.
    assert (Happ : ∀ id, applied (committed w2) id ↔
                         applied (committed w) id ∧ id ≠ ID m).
    { intros id. unfold applied. rewrite Ha, Hrows. set_solver. }
    destruct IH as (evs & Ht' & Hrev & Hiff & Htr); try done.
    assert (Hsame : reversible (committed w2) ms = reversible (committed w) ms).
    { apply filter_ext_elem. intros m' Hm'. rewrite Happ.
      split; [tauto|]. intros [? ?]. split_and!; try done.
      intros Heq. destruct Hnotin. rewrite <- Heq.
      by apply list_elem_of_fmap_2. }
    rewrite Hsame in Hrev.
    assert (Hevs2 : evs2 = since (printf s ("Running rollback: " +:+ ID m +:+ nl) w1).1 w2)
      by (symmetry; by apply since_ext).
    exists (EvDbGet selectSQL [ID m] :: evs2 ++ evs). split_and!.
    + rewrite Ht', Ht2. simpl. rewrite Ht, <- !app_assoc. done.
    + rewrite reverses_cons, reverses_app, Hrev, Hevs2, Hs.
      rewrite !reverses_app, reverses_tx_events. unfold reversible.
      by rewrite (filter_cons_True _ m) by done.
    + intros id. rewrite Hiff, Happ, (filter_cons_True _ m) by done.
      rewrite fmap_cons, not_elem_of_cons. tauto.
    + intros _. apply Htr. unfold is_Some. rewrite Ha. eauto.
Qed.

Lemma Sqlx_Migrate_nil s w w1 :
  Sqlx_Migrate engine s w = (w1, Val None) →
  ∃ wc, createMigrationTable engine s
          (printf s ("Creating/checking migrations table..." +:+ nl) w).1
        = (wc, Val None) ∧
        migrateLoop engine s (Migrations s) wc = (w1, Val None).
Proof.
  rewrite Sqlx_Migrate_unfold.
  destruct (createMigrationTable engine s _) as [wc [[|]|]]; try done.
  by exists wc.
Qed.

Lemma Sqlx_Rollback_nil s w w1 :
  Sqlx_Rollback engine s w = (w1, Val None) →
  ∃ wc, createMigrationTable engine s
          (printf s ("Creating/checking migrations table..." +:+ nl) w).1
        = (wc, Val None) ∧
        rollbackLoop engine s (length (Migrations s)) wc = (w1, Val None).
Proof.
  rewrite Sqlx_Rollback_unfold.
  destruct (createMigrationTable engine s _) as [wc [[|]|]]; try done.
  by exists wc.
Qed.

Lemma Migrate_success s w w1 :
  NoDup (ID <$> Migrations s) →
  Forall (step_safe engine) (Migrations s) →
  Sqlx_Migrate engine s w = (w1, Val None) →
  applies (since w w1) = ID <$> pending (committed w) (Migrations s) ∧
  (∀ id, applied (committed w1) id ↔
         applied (committed w) id ∨ id ∈ ID <$> Migrations s) ∧
  is_Some (tracker (committed w1)).
Proof.
  intros Hnd Hsafe H1.
  apply Sqlx_Migrate_nil in H1 as (wc & Hc & Hloop).
  apply createMigrationTable_ok in Hc as (Htc & Htr & Hiffc & _).
  simpl in Htc, Hiffc.
  pose proof (migrateLoop_in_order engine s (Migrations s) wc) as Hrel.
  rewrite Hloop in Hrel.
  apply apply_in_order_success in Hrel as (evs & Ht & Hap & Hiff & Htr1);
    try done.
  simpl in *.
  rewrite (pending_ext _ (committed w)) in Hap by (intros; apply Hiffc).
  split_and!.
  - erewrite since_ext; [|by rewrite Ht, Htc, <- app_assoc].
    by rewrite applies_app.
  - intros id. by rewrite Hiff, Hiffc.
  - by apply Htr1.
Qed.

Lemma Rollback_success s w w1 :
  NoDup (ID <$> Migrations s) →
  Forall (reverse_safe engine) (Migrations s) →
  Sqlx_Rollback engine s w = (w1, Val None) →
  reverses (since w w1)
    = ID <$> reversible (committed w) (reverse (Migrations s)) ∧
  (∀ id, applied (committed w1) id ↔
         applied (committed w) id ∧
         id ∉ ID <$> filter has_reverse (Migrations s)) ∧
  is_Some (tracker (committed w1)).
Proof.
  intros Hnd Hsafe H1.
  apply Sqlx_Rollback_nil in H1 as (wc & Hc & Hloop).
  apply createMigrationTable_ok in Hc as (Htc & Htr & Hiffc & _).
  simpl in Htc, Hiffc.
  pose proof (rollbackLoop_all_in_order engine s wc) as Hrel.
  rewrite Hloop in Hrel.
  apply rollback_in_order_success in Hrel as (evs & Ht & Hrev & Hiff & Htr1);
    try done.
  2: { by rewrite fmap_reverse, reverse_Permutation. }
  2: { by apply Forall_reverse. }
  simpl in *.
  assert (Hr : reversible (committed wc) (reverse (Migrations s))
               = reversible (committed w) (reverse (Migrations s))).
  { apply filter_ext_elem. intros m _. by rewrite Hiffc. }
  rewrite Hr in Hrev.
  split_and!.
  - erewrite since_ext; [|by rewrite Ht, Htc, <- app_assoc].
    by rewrite reverses_app.
  - intros id. rewrite Hiff, Hiffc.
    rewrite filter_reverse, fmap_reverse, elem_of_reverse. done.
  - by apply Htr1.
Qed.

(** X10.  When [Migrate] returns nil, for a registry whose ids are distinct
    and whose apply actions leave the tracker table alone, the apply
    actions that were invoked are exactly those of the steps that were not
    applied before the call, once each and in the order of the registry;
    afterwards a step is applied exactly when it was applied before or
    is in the registry. *)
Theorem Migrate_applies_pending (s : Sqlx) (w w1 : World U) :
  NoDup (ID <$> Migrations s) →
  Forall (step_safe engine) (Migrations s) →
  Sqlx_Migrate engine s w = (w1, Val None) →
  applies (since w w1) = ID <$> pending (committed w) (Migrations s) ∧
  (∀ id, applied (committed w1) id ↔
         applied (committed w) id ∨ id ∈ ID <$> Migrations s).
Proof.
  intros Hnd Hsafe H1.
  destruct (Migrate_success s w w1 Hnd Hsafe H1) as (? & ? & _). done.
Qed.

(** X11.  When [Rollback] returns nil, for a registry whose ids are distinct
    and whose reverse actions leave the tracker table alone, the reverse
    actions that were invoked are exactly those of the steps that have one
    and were applied, once each and in the reverse of the order of the
    registry; afterwards a step is applied exactly when it was applied
    before and is not a step of the registry with a reverse action. *)
Theorem Rollback_reverses_applied_steps (s : Sqlx) (w w1 : World U) :
  NoDup (ID <$> Migrations s) →
  Forall (reverse_safe engine) (Migrations s) →
  Sqlx_Rollback engine s w = (w1, Val None) →
  reverses (since w w1)
    = ID <$> reversible (committed w) (reverse (Migrations s)) ∧
  (∀ id, applied (committed w1) id ↔
         applied (committed w) id ∧
         id ∉ ID <$> filter has_reverse (Migrations s)).
Proof.
  intros Hnd Hsafe H1.
  destruct (Rollback_success s w w1 Hnd Hsafe H1) as (? & ? & _). done.
Qed.

(** X12.  Growing the registry: after [Migrate] succeeded with the steps
    [pre], a successful [Migrate] with [pre ++ post] invokes no apply
    action of [pre] again; it invokes those of the steps of [post] that
    were not applied at the very start, in order, and leaves every step
    of [pre ++ post] applied. *)
Theorem Migrate_incremental
    (P : option (string → list string → list string))
    (pre post : list SqlxMigration) (w w1 w2 : World U) :
  NoDup (ID <$> (pre ++ post)) →
  Forall (step_safe engine) (pre ++ post) →
  Sqlx_Migrate engine (mkSqlx pre P) w = (w1, Val None) →
  Sqlx_Migrate engine (mkSqlx (pre ++ post) P) w1 = (w2, Val None) →
  applies (since w1 w2) = ID <$> pending (committed w) post ∧
  (∀ m, m ∈ pre ++ post → applied (committed w2) (ID m)).
Proof.
  intros Hnd Hsafe H1 H2.
  pose proof Hnd as Hnd'. rewrite fmap_app in Hnd'.
  apply NoDup_app in Hnd' as (Hndpre & Hdisj & _).
  apply Forall_app in Hsafe as [Hsafepre Hsafepost].
  apply Migrate_success in H1 as (_ & Hiff1 & _); try done.
  apply Migrate_success in H2 as (Hap & Hiff2 & _); try done.
  2: { by apply Forall_app. }
  simpl in *. split.
  - rewrite Hap. f_equal. unfold pending. rewrite filter_app.
    rewrite (filter_none _ pre).
    2: { intros m Hm Hna. apply Hna, Hiff1.
         right. by apply list_elem_of_fmap_2. }
    simpl. apply filter_ext_elem.
    intros m Hm. rewrite Hiff1. split; [tauto|].
    intros Hna [?|Hin]; [done|].
    eapply Hdisj; [exact Hin|]. by apply list_elem_of_fmap_2.
  - intros m Hm. apply Hiff2. right. by apply list_elem_of_fmap_2.
Qed.

(** X13.  A successful [Migrate], then a successful [Rollback], then a
    successful [Migrate], all with the same registry: the rollback
    reverses every step that has a reverse action, last step first; the
    second migrate applies again exactly these steps, in the order of the
    registry; and the applied steps are then the same as after the first
    migrate. *)
Theorem Migrate_Rollback_Migrate (s : Sqlx) (w w1 w2 w3 : World U) :
  NoDup (ID <$> Migrations s) →
  Forall (step_safe engine) (Migrations s) →
  Forall (reverse_safe engine) (Migrations s) →
  Sqlx_Migrate engine s w = (w1, Val None) →
  Sqlx_Rollback engine s w1 = (w2, Val None) →
  Sqlx_Migrate engine s w2 = (w3, Val None) →
  reverses (since w1 w2) = ID <$> filter has_reverse (reverse (Migrations s)) ∧
  applies (since w2 w3) = ID <$> filter has_reverse (Migrations s) ∧
  (∀ id, applied (committed w3) id ↔ applied (committed w1) id).
Proof.
  intros Hnd Hsafe Hrsafe H1 H2 H3.
  apply Migrate_success in H1 as (_ & Hiff1 & _); try done.
  apply Rollback_success in H2 as (Hrev & Hiff2 & _); try done.
  apply Migrate_success in H3 as (Hap & Hiff3 & _); try done.
  assert (Hall : ∀ m, m ∈ Migrations s → applied (committed w1) (ID m)).
  { intros m Hm. apply Hiff1. right. by apply list_elem_of_fmap_2. }
  split_and!.
  - rewrite Hrev. f_equal. apply filter_ext_elem.
    intros m Hm. rewrite elem_of_reverse in Hm. split; [tauto|].
    intros ?. split; [done|]. by apply Hall.
  - rewrite Hap. f_equal. apply filter_ext_elem.
    intros m Hm. rewrite Hiff2. split.
    + intros Hna.
      destruct (decide (ID m ∈ ID <$> filter has_reverse (Migrations s)))
        as [Hin|Hni].
      * apply list_elem_of_fmap in Hin as (m' & Heq & Hm').
        apply list_elem_of_filter in Hm' as [Hhr Hm'].
        by rewrite (NoDup_ID_inj (Migrations s) m m' Hnd Hm Hm' Heq).
      * destruct Hna. split; [by apply Hall|done].
    + intros Hhr [_ Hni]. apply Hni.
      apply list_elem_of_fmap_2. by apply list_elem_of_filter.
  - intros id. rewrite Hiff3, Hiff2. split.
    + intros [[? _]|Hin]; [done|].
      apply list_elem_of_fmap in Hin as (m & -> & Hm). by apply Hall.
    + intros Ha.
      destruct (decide (id ∈ ID <$> filter has_reverse (Migrations s)))
        as [Hin|Hni]; [|by left].
      right. apply list_elem_of_fmap in Hin as (m & -> & Hm).
      apply list_elem_of_filter in Hm as [_ Hm].
      by apply list_elem_of_fmap_2.
Qed.

(** *** Rolling back when there is nothing to roll back *)

Lemma rollbackLoop_S s i w m :
  Migrations s !! i = Some m →
  rollbackLoop engine s (S i) w =
    match Rollback m with
    | None =>
        rollbackLoop engine s i
          (printf s ("Rollback not provided: " +:+ ID m +:+ nl) w).1
    | Some _ =>
        let w1 := (db_Get selectSQL [ID m] w).1 in
        match lookup_error selectSQL [ID m] w with
        | Some ErrNoRows =>
            rollbackLoop engine s i
              (printf s ("Skipping rollback: " +:+ ID m +:+ nl) w1).1
        | None =>
            match runRollback engine s m
                    (printf s ("Running rollback: " +:+ ID m +:+ nl) w1).1 with
            | (w2, Val None) => rollbackLoop engine s i w2
            | (w2, Val (Some err)) => (w2, Val (Some err))
            | (w2, Panic x) => (w2, Panic x)
            end
        | Some err => (w1, Val (Some (Errorf "looking up rollback by id" err)))
        end
    end.
Proof.
  intros Hm. simpl. rewrite Hm.
  destruct (Rollback m) as [g|]; [|by unfold bind; rewrite printf_fst].
  unfold bind at 1. rewrite db_Get_result. simpl.
  destruct (lookup_error selectSQL [ID m] w) as [[]|]; try done.
  unfold bind at 1. rewrite printf_fst. unfold bind.
  by destruct (runRollback engine s m _) as [w2 [[|]|]].
Qed.

Lemma lookup_of_not_applied id w :
  faults w = [] → is_Some (tracker (committed w)) →
  ¬ applied (committed w) id →
  lookup_error selectSQL [id] w = Some ErrNoRows.
Proof.
  unfold lookup_error, applied. intros -> [rows Hrows]. rewrite select_id.
  rewrite Hrows. intros ?. by rewrite decide_False.
Qed.

Lemma rollbackLoop_idle s n : ∀ w,
  n ≤ length (Migrations s) →
  faults w = [] →
  is_Some (tracker (committed w)) →
  (∀ m, m ∈ take n (Migrations s) → has_reverse m →
        ¬ applied (committed w) (ID m)) →
  ∃ o, rollbackLoop engine s n w =
         (mkWorld (committed w) (txs w) []
            (trace w ++ ((λ m, EvDbGet selectSQL [ID m]) <$>
                         filter has_reverse (reverse (take n (Migrations s)))))
            o, Val None).
Proof.
  induction n as [|i IH]; intros w Hn Hf Htr Hidle.
  { exists (out w). simpl. unfold ret.
    rewrite app_nil_r, <- Hf. by destruct w. }
  destruct (lookup_lt_is_Some_2 (Migrations s) i) as [m Hm]; [lia|].
  rewrite (rollbackLoop_S s i w m Hm).
  rewrite (take_S_r _ _ _ Hm), reverse_snoc.
  assert (Hrest : ∀ m', m' ∈ take i (Migrations s) → has_reverse m' →
                        ¬ applied (committed w) (ID m')).
  { intros m' Hm'. apply Hidle. rewrite (take_S_r _ _ _ Hm).
    apply elem_of_app. by left. }
  destruct (Rollback m) as [g|] eqn:Hg.
  - assert (Hhr : has_reverse m) by (unfold has_reverse; by rewrite Hg).
    cbv zeta. rewrite lookup_of_not_applied; try done.
    2: { apply Hidle; [|done]. rewrite (take_S_r _ _ _ Hm).
         apply elem_of_app. right. by left. }
    rewrite db_Get_result.
    match goal with |- context [rollbackLoop _ _ _ ?w2] =>
      destruct (IH w2) as [o Ho] end; try done; [lia|by simpl; rewrite Hf|].
    exists o. rewrite Ho. simpl.
    rewrite filter_cons_True by done. simpl. by rewrite <- app_assoc.
  - assert (Hhr : ¬ has_reverse m)
      by (unfold has_reverse; rewrite Hg; by intros []).
    match goal with |- context [rollbackLoop _ _ _ ?w2] =>
      destruct (IH w2) as [o Ho] end; try done; [lia|].
    exists o. rewrite Ho. simpl.
    by rewrite filter_cons_False by done.
Qed.

(** X14.  A second [Rollback] after a successful one, with no connection
    failure: it returns nil, leaves the committed store as it is, begins
    no transaction, and does nothing but create/check the tracker table
    and look up, last step first, each step that has a reverse action. *)
Theorem Rollback_idempotent (s : Sqlx) (w w1 : World U) :
  NoDup (ID <$> Migrations s) →
  Forall (reverse_safe engine) (Migrations s) →
  Sqlx_Rollback engine s w = (w1, Val None) →
  faults w1 = [] →
  let '(w2, r) := Sqlx_Rollback engine s w1 in
  r = Val None ∧
  committed w2 = committed w1 ∧
  since w1 w2 =
    EvDbExec createTableSQL []
      :: ((λ m, EvDbGet selectSQL [ID m]) <$>
          filter has_reverse (reverse (Migrations s))).
Proof.
  intros Hnd Hsafe H1 Hf1.
  apply Rollback_success in H1 as (_ & Hiff & Htr); try done.
  rewrite Sqlx_Rollback_unfold.
  set (w1' := (printf s _ w1).1).
  assert (Ht1 : trace w1' = trace w1) by done.
  assert (Hc1 : committed w1' = committed w1) by done.
  assert (Hf1' : faults w1' = []) by done.
  clearbody w1'.
  rewrite createMigrationTable_result, Hf1'. simpl tail.
  destruct Htr as [rows Hrows]. rewrite Hc1, Hrows.
  match goal with |- context [rollbackLoop _ _ _ ?w2] =>
    destruct (rollbackLoop_idle s (length (Migrations s)) w2) as [o Ho] end;
    try done.
  { simpl. intros m Hm Hhr. rewrite firstn_all in Hm. rewrite Hiff.
    intros [_ Hni]. apply Hni. apply list_elem_of_fmap_2.
    by apply list_elem_of_filter. }
  rewrite Ho. simpl. rewrite firstn_all, Ht1. split_and!; try done.
  apply since_ext. simpl. by rewrite <- app_assoc.
Qed.

Lemma rollbackLoop_no_reverse s n : ∀ w,
  n ≤ length (Migrations s) →
  Forall (λ m, Rollback m = None) (Migrations s) →
  ∃ o, rollbackLoop engine s n w = (set_out o w, Val None).
Proof.
  induction n as [|i IH]; intros w Hn Hall.
  { exists (out w). simpl. unfold ret. by rewrite set_out_id. }
  destruct (lookup_lt_is_Some_2 (Migrations s) i) as [m Hm]; [lia|].
  rewrite (rollbackLoop_S s i w m Hm).
  rewrite Forall_forall in Hall.
  rewrite (Hall m) by (by eapply list_elem_of_lookup_2).
  match goal with |- context [rollbackLoop _ _ _ ?w2] =>
    destruct (IH w2) as [o Ho] end; [lia|by apply Forall_forall|].
  exists o. by rewrite Ho.
Qed.

(** X15.  When no step of the registry has a reverse action, [Rollback]
    sends the statement that creates the tracker table and nothing else:
    no lookup, no transaction.  The applied steps and the schema stay as
    they were, and the result is nil unless that one statement failed. *)
Theorem Rollback_without_reverse_actions (s : Sqlx) (w : World U) :
  Forall (λ m, Rollback m = None) (Migrations s) →
  let '(w', r) := Sqlx_Rollback engine s w in
  since w w' = [EvDbExec createTableSQL []] ∧
  (∀ id, applied (committed w') id ↔ applied (committed w) id) ∧
  schema (committed w') = schema (committed w) ∧
  (r = Val None ∨
   r = Val (Some (Errorf "creating migrations table" badConn))).
Proof.
  intros Hall. rewrite Sqlx_Rollback_unfold.
  set (w0 := (printf s _ w).1).
  assert (Ht0 : trace w0 = trace w) by done.
  assert (Hc0 : committed w0 = committed w) by done.
  clearbody w0.
  destruct (createMigrationTable engine s w0) as [wc chk] eqn:Hc.
  pose proof Hc as Hc'. rewrite createMigrationTable_result in Hc'.
  destruct (faults w0) as [|[] ?]; simplify_eq.
  2: { rewrite Hc0. split_and!; auto. apply since_ext. simpl. by rewrite Ht0. }
  all: apply createMigrationTable_ok in Hc as (Htc & _ & Hiff & Hsch & _).
  all: match goal with |- context [rollbackLoop _ _ _ ?w2] =>
    destruct (rollbackLoop_no_reverse s (length (Migrations s)) w2)
      as [o Ho] end; [done..|].
  all: rewrite Ho; rewrite <- Hc0.
  all: split_and!; auto.
  all: apply since_ext; simpl; by rewrite Ht0.
Qed.
End Sequences.

(** ** The earlier executor; duplicate ids; builders *)

Section Earlier.
Context {U : Type} (engine : Engine U).
Implicit Types (w : World U) (v st : Store U) (g : TxFunc) (f : option TxFunc) (tx : Tx).

Lemma db_Exec_effect q args w c1 fs1 err :
  stmt_effect engine q args (faults w) (committed w) = (c1, fs1, err) →
  db_Exec engine q args w =
    (mkWorld c1
       (match err with
        | None => refresh engine q args <$> txs w
        | Some _ => txs w
        end)
       fs1 (trace w ++ [EvDbExec q args]) (out w), Val err).
Proof.
  unfold stmt_effect, db_Exec, next_fault, emit; simpl.
  destruct (faults w) as [|[] fs]; simpl.
  all: try (destruct (exec engine q args (committed w)) eqn:E).
  all: intros ?; simplify_eq; done.
Qed.

Lemma refresh_new q args (l : list (option (Store U))) c c1 :
  exec engine q args c = inl c1 →
  refresh engine q args <$> (l ++ [Some c])
  = (refresh engine q args <$> l) ++ [Some c1].
Proof. intros Hx. rewrite fmap_app. simpl. by rewrite Hx. Qed.

Lemma Old_runMigration_result (s : Old.Sqlx) (m : Old.SqlxMigration) w :
  Old.runMigration engine s m w
  = old_result engine (Old.ID m) (Old.Migrate m) w.
Proof.
  unfold Old.runMigration, old_result, bind.
  rewrite Beginx_result.
  destruct (faults w) as [|[] fs] eqn:Hfs; [| done |].
  all: simpl tail;
    destruct (stmt_effect engine _ _ _ _) as [[c1 fs1] err] eqn:E1.
  all: erewrite db_Exec_effect; [| exact E1 ].
  all: destruct err as [e|];
    [ assert (c1 = committed w) as ->
        by (unfold stmt_effect in E1; repeat case_match; by simplify_eq);
      erewrite Rollback_open by apply view_new; unfold ret; simpl;
      rewrite insert_new, <- ?app_assoc; reflexivity | ].
  all: assert (Hx : exec engine insertSQL [Old.ID m] (committed w) = inl c1)
    by (unfold stmt_effect in E1; repeat case_match; by simplify_eq).
  all: cbn [txs]; rewrite (refresh_new _ _ _ _ _ Hx).
  all: assert (Hlen : length (txs w)
                 = length (refresh engine insertSQL [Old.ID m] <$> txs w))
         by (by rewrite length_fmap).
  all: rewrite Hlen.
  all: destruct (Old.Migrate m) as [g|]; simpl;
    [| unfold panic, emit; simpl; rewrite <- ?app_assoc; reflexivity ].
  all: destruct (action_effect engine g fs1 c1) as [[[v2 fs2] stmts] r] eqn:E2.
  all: erewrite run_effect; [| apply view_new | exact E2 ].
  all: simpl; rewrite insert_new.
  all: destruct r as [[e|]|x];
    [ | | simpl; rewrite <- ?app_assoc; reflexivity ].
  all: try (erewrite Rollback_open by apply view_new; simpl;
            rewrite insert_new, <- ?app_assoc; reflexivity).
  all: erewrite Commit_open by apply view_new; simpl.
  all: destruct fs2 as [|[] fs3]; simpl;
    rewrite insert_new, <- ?app_assoc; reflexivity.
Qed.

(** X16.  The earlier [runMigration], which sends the bookkeeping insert on
    the connection instead of on the transaction, returns on every input
    what the current one returns and consumes the same connection
    failures; when the result is nil the committed stores are the same. *)
Theorem Old_runMigration_agrees (s : Sqlx) (m : SqlxMigration) (w : World U) :
  let new := runMigration engine s m w in
  let old := Old.runMigration engine (as_old_sqlx s) (as_old m) w in
  old.2 = new.2 ∧
  faults old.1 = faults new.1 ∧
  (new.2 = Val None → committed old.1 = committed new.1).
Proof.
  intros new old. subst new old.
  rewrite Old_runMigration_result, runMigration_result.
  unfold old_result, transaction_result.
  cbn [as_old Old.ID Old.Migrate].
  destruct (faults w) as [|[] fs0]; [|done|].
  all: destruct (stmt_effect engine insertSQL [ID m] _ (committed w))
         as [[c1 fs1] [e|]]; [done|].
  all: destruct (Migrate m) as [g|]; [|done].
  all: destruct (action_effect engine g fs1 c1) as [[[v2 fs2] stmts] [[e|]|x]];
    try done.
  all: by destruct fs2 as [|[] ?].
Qed.

(** X17.  In the earlier [runMigration] the bookkeeping insert is not part
    of the transaction.  When the begin and the insert succeed, every
    outcome other than nil (the action failed or panicked, the step has no
    action, the commit failed) leaves the committed store as it was right
    after the insert: the step is recorded as applied although its action
    did not take effect. *)
Theorem Old_runMigration_keeps_row
    (s : Old.Sqlx) (m : Old.SqlxMigration) (w : World U) (c1 : Store U) :
  true ∉ take 2 (faults w) →
  exec engine insertSQL [Old.ID m] (committed w) = inl c1 →
  let '(w', r) := Old.runMigration engine s m w in
  applied c1 (Old.ID m) ∧
  match r with
  | Val None => True
  | _ => committed w' = c1
  end.
Proof.
  intros Hf Hx. rewrite Old_runMigration_result.
  assert (Ha : applied c1 (Old.ID m)).
  { rewrite exec_insert in Hx. unfold applied.
    destruct (tracker (committed w)); [|done].
    case_decide; simplify_eq. simpl. set_solver. }
  unfold old_result, stmt_effect. rewrite Hx.
  destruct (faults w) as [|[] [|[] fs]]; simpl in *;
    try (exfalso; set_solver).
  all: destruct (Old.Migrate m) as [g|]; [|done].
  all: destruct (action_effect engine g _ c1) as [[[v2 fs2] stmts] [[e|]|x]];
    try done.
  all: by destruct fs2 as [|[] ?].
Qed.

(** X18.  Running a step whose id is already in the tracker, when the
    connection does not fail: the insert violates the primary key, the
    error is returned wrapped, the committed store is unchanged and the
    apply action is not invoked. *)
Theorem runMigration_duplicate_id
    (s : Sqlx) (m : SqlxMigration) (w : World U) :
  true ∉ take 2 (faults w) →
  applied (committed w) (ID m) →
  let '(w', r) := runMigration engine s m w in
  r = Val (Some (Errorf "running migration"
                   (DriverError "UNIQUE constraint failed: migrations.id"))) ∧
  committed w' = committed w ∧
  applies (since w w') = [].
Proof.
  intros Hf Ha. rewrite runMigration_result.
  unfold transaction_result, stmt_effect. rewrite exec_insert.
  unfold applied in Ha.
  destruct (tracker (committed w)) as [rows|]; [|done].
  rewrite decide_True by done.
  destruct (faults w) as [|[] [|[] fs]]; simpl in *;
    try (exfalso; set_solver).
  all: split_and!; try done.
  all: by rewrite since_app.
Qed.

Lemma rollbackLoop_out s s' n :
  Migrations s = Migrations s' →
  n ≤ length (Migrations s) →
  ∀ w o o0,
  ∃ o', rollbackLoop engine s' n (set_out o w) =
          (set_out o' (rollbackLoop engine s n (set_out o0 w)).1,
           (rollbackLoop engine s n (set_out o0 w)).2).
Proof.
  intros Hms. induction n as [|i IH]; intros Hn w o o0; [by eexists|].
  destruct (lookup_lt_is_Some_2 (Migrations s) i) as [m Hm]; [lia|].
  rewrite (rollbackLoop_S engine s i _ m Hm).
  rewrite (rollbackLoop_S engine s' i _ m) by (by rewrite <- Hms).
  specialize (IH ltac:(lia)).
  destruct (Rollback m) as [g|].
  - cbv zeta. rewrite !db_Get_out.
    replace (lookup_error selectSQL [ID m] (set_out o w))
      with (lookup_error selectSQL [ID m] w) by done.
    replace (lookup_error selectSQL [ID m] (set_out o0 w))
      with (lookup_error selectSQL [ID m] w) by done.
    cbn [fst].
    set (w1 := (db_Get selectSQL [ID m] w).1).
    destruct (lookup_error selectSQL [ID m] w) as [[]|]; try by eexists.
    + destruct (printf_out s' ("Skipping rollback: " +:+ ID m +:+ nl)
                  (set_out o w1)) as [o1 ->].
      destruct (printf_out s ("Skipping rollback: " +:+ ID m +:+ nl)
                  (set_out o0 w1)) as [o2 ->].
      rewrite !set_out_set_out. apply IH.
    + destruct (printf_out s' ("Running rollback: " +:+ ID m +:+ nl)
                  (set_out o w1)) as [o1 ->].
      destruct (printf_out s ("Running rollback: " +:+ ID m +:+ nl)
                  (set_out o0 w1)) as [o2 ->].
      rewrite !set_out_set_out.
      rewrite !runRollback_result, !transaction_out.
      destruct (transaction_result engine deleteSQL _ _ _ _ w1)
        as [w2 [[e|]|x]]; cbn [fst snd]; try by eexists.
      apply IH.
  - destruct (printf_out s' ("Rollback not provided: " +:+ ID m +:+ nl)
                (set_out o w)) as [o1 ->].
    destruct (printf_out s ("Rollback not provided: " +:+ ID m +:+ nl)
                (set_out o0 w)) as [o2 ->].
    rewrite !set_out_set_out. apply IH.
Qed.

(** X19.  The reporting hook has no influence on what [Rollback] does: with
    any two hooks and any two output logs to start from, the two calls
    return the same result and leave the same committed store, open
    transactions, fault script and trace of database calls. *)
Theorem Rollback_ignores_Printf
    (ms : list SqlxMigration)
    (P P' : option (string → list string → list string))
    (w : World U) (o : list string) :
  let r := Sqlx_Rollback engine (mkSqlx ms P) w in
  let r' := Sqlx_Rollback engine (mkSqlx ms P') (set_out o w) in
  r'.2 = r.2 ∧ same_db r'.1 r.1.
Proof.
  intros r r'. subst r r'. rewrite !Sqlx_Rollback_unfold.
  destruct (printf_out (mkSqlx ms P')
              ("Creating/checking migrations table..." +:+ nl) (set_out o w))
    as [o1 ->].
  destruct (printf_out (mkSqlx ms P)
              ("Creating/checking migrations table..." +:+ nl) w)
    as [o2 ->].
  rewrite set_out_set_out.
  rewrite (createMigrationTable_out engine (mkSqlx ms P) (mkSqlx ms P') w o1).
  rewrite (createMigrationTable_out engine (mkSqlx ms P) (mkSqlx ms P) w o2).
  destruct (createMigrationTable engine (mkSqlx ms P) w) as [wc [[e|]|x]];
    cbn [fst snd]; try done.
  simpl Migrations.
  destruct (rollbackLoop_out (mkSqlx ms P) (mkSqlx ms P') (length ms)
              eq_refl (le_n _) wc o1 o2) as [o' ->].
  done.
Qed.
End Earlier.

Section FileBuilders.
(** X20.  When both files are named, readable and not empty,
    [SqlxFileMigration] returns the very step [SqlxQueryMigration] builds
    from the contents of the two files. *)
Theorem SqlxFileMigration_as_query
    (id upFile downFile upText downText : string) (fs : FS) :
  upFile ≠ "" → downFile ≠ "" →
  files fs !! upFile = Some (Readable upText) →
  files fs !! downFile = Some (Readable downText) →
  upText ≠ "" → downText ≠ "" →
  (SqlxFileMigration id upFile downFile fs).2
  = Val (SqlxQueryMigration id upText downText).
Proof.
  intros Hu Hd Hfu Hfd Htu Htd. unfold SqlxFileMigration.
  rewrite fileFn_path, Hfu by done. rewrite fileFn_path by done. simpl.
  rewrite Hfd. simpl. unfold SqlxQueryMigration.
  by rewrite !queryFn_exec by done.
Qed.

(** X21.  The two builders treat emptiness differently.  For a file that
    exists and is empty, [SqlxFileMigration] returns a step whose apply
    action is not nil and executes the empty statement, whereas
    [SqlxQueryMigration] makes the action nil for the empty query. *)
Theorem SqlxFileMigration_empty_file (id upFile : string) (fs : FS) :
  upFile ≠ "" →
  files fs !! upFile = Some (Readable "") →
  (SqlxFileMigration id upFile "" fs).2
  = Val {| ID := id; Migrate := Some (Exec "" [] Ret); Rollback := None |} ∧
  Migrate (SqlxQueryMigration id "" "") = None.
Proof.
  intros Hu Hf. split; [|done]. unfold SqlxFileMigration.
  rewrite fileFn_path, Hf by done. by rewrite fileFn_empty.
Qed.
End FileBuilders.

(** ** What is printed *)

Section Log.
Context {U : Type} (engine : Engine U).
Implicit Types (w : World U) (v st : Store U) (g : TxFunc) (f : option TxFunc) (tx : Tx).

Lemma printf_default s line w :
  Printf s = None → out (printf s line w).1 = out w ++ [line].
Proof. unfold printf. by intros ->. Qed.

Lemma migrate_line_ext st st' m :
  (applied st (ID m) ↔ applied st' (ID m)) →
  migrate_line st m = migrate_line st' m.
Proof. unfold migrate_line. intros H. repeat case_decide; tauto. Qed.

Lemma rollback_line_ext st st' m :
  (applied st (ID m) ↔ applied st' (ID m)) →
  rollback_line st m = rollback_line st' m.
Proof.
  unfold rollback_line. intros H. destruct (Rollback m); [|done].
  repeat case_decide; tauto.
Qed.

Lemma runMigration_applied s m w w2 :
  runMigration engine s m w = (w2, Val None) →
  step_safe engine m →
  out w2 = out w ∧
  ∀ id, applied (committed w2) id ↔ applied (committed w) id ∨ id = ID m.
Proof.
  intros Hr Hm. split.
  { by apply runMigration_trace in Hr as (? & _ & _ & ?). }
  rewrite runMigration_result in Hr.
  apply transaction_success in Hr
    as (g & v1 & v2 & fs & stmts & Hf & Hx & Ha & Hc2 & Hs).
  apply action_effect_tracker in Ha; [|by apply Hm].
  rewrite exec_insert in Hx.
  destruct (tracker (committed w)) as [rows|] eqn:Hrows; [|done].
  case_decide as Hin; simplify_eq. simpl in Ha.
  intros id. unfold applied. rewrite Ha, Hrows. set_solver.
Qed.

Lemma runRollback_applied s m w w2 :
  runRollback engine s m w = (w2, Val None) →
  reverse_safe engine m →
  out w2 = out w ∧
  ∀ id, applied (committed w2) id ↔ applied (committed w) id ∧ id ≠ ID m.
Proof.
  intros Hr Hm. split.
  { by apply runRollback_trace in Hr as (? & _ & _ & ?). }
  rewrite runRollback_result in Hr.
  apply transaction_success in Hr
    as (g & v1 & v2 & fs & stmts & Hf & Hx & Ha & Hc2 & Hs).
  apply action_effect_tracker in Ha; [|by apply Hm].
  rewrite exec_delete in Hx.
  destruct (tracker (committed w)) as [rows|] eqn:Hrows; [|done].
  simplify_eq. simpl in Ha.
  intros id. unfold applied. rewrite Ha, Hrows. set_solver.
Qed.

Lemma apply_in_order_log s ms w o :
  apply_in_order engine s ms w o →
  o.2 = Val None →
  Printf s = None →
  NoDup (ID <$> ms) →
  Forall (step_safe engine) ms →
  out o.1 = out w ++ (migrate_line (committed w) <$> ms).
Proof.
  induction 1 as [w|m ms w w1 o Hg _ IH|m ms w w1 w2 o Hg Hr _ IH
                  |m ms w w1 w2 r Hg Hr Hne|m ms w w1 err Hg Hne];
    simpl; intros Ho HP Hnd Hsafe; try done.
  - by rewrite app_nil_r.
  - pose proof (db_Get_sound (ID m) w) as Hsound. rewrite Hg in Hsound.
    simpl in Hsound.
    apply db_Get_frame in Hg as (_ & Hc & _ & Hout & _).
    apply NoDup_cons in Hnd as [_ Hnd].
    apply Forall_cons in Hsafe as [_ Hsafe].
    rewrite IH by done. rewrite printf_default by done.
    simpl. rewrite Hc, Hout, <- app_assoc. simpl.
    unfold migrate_line at 2. by rewrite decide_True by done.
  - pose proof (db_Get_sound (ID m) w) as Hsound. rewrite Hg in Hsound.
    destruct Hsound as [_ Hna].
    apply db_Get_frame in Hg as (_ & Hc & _ & Hout & _).
    apply NoDup_cons in Hnd as [Hnotin Hnd].
    apply Forall_cons in Hsafe as [Hm Hsafe].
    apply runMigration_applied in Hr as [Hout2 Happ]; [|done].
    simpl in Happ. rewrite Hc in Happ.
    rewrite IH by done. rewrite Hout2, printf_default by done.
    rewrite Hout, <- app_assoc. simpl.
    unfold migrate_line at 2. rewrite decide_False by done.
    do 2 f_equal. apply list_fmap_ext. intros i m' Hm'.
    apply migrate_line_ext. rewrite Happ. split; [|by left].
    intros [?|Heq]; [done|]. destruct Hnotin. rewrite <- Heq.
    apply list_elem_of_fmap_2. by eapply list_elem_of_lookup_2.
Qed.

Lemma rollback_in_order_log s ms w o :
  rollback_in_order engine s ms w o →
  o.2 = Val None →
  Printf s = None →
  NoDup (ID <$> ms) →
  Forall (reverse_safe engine) ms →
  out o.1 = out w ++ (rollback_line (committed w) <$> ms).
Proof.
  induction 1 as [w|m ms w o Hn _ IH|m ms w w1 o Hy Hg _ IH
                  |m ms w w1 w2 o Hy Hg Hr _ IH
                  |m ms w w1 w2 r Hy Hg Hr Hne|m ms w w1 err Hy Hg Hne];
    simpl; intros Ho HP Hnd Hsafe; try done.
  - by rewrite app_nil_r.
  - apply NoDup_cons in Hnd as [_ Hnd].
    apply Forall_cons in Hsafe as [_ Hsafe].
    rewrite IH by done. rewrite printf_default by done.
    simpl. rewrite <- app_assoc. simpl.
    unfold rollback_line at 2. by rewrite Hn.
  - pose proof (db_Get_sound (ID m) w) as Hsound. rewrite Hg in Hsound.
    destruct Hsound as [_ Hna].
    apply db_Get_frame in Hg as (_ & Hc & _ & Hout & _).
    apply NoDup_cons in Hnd as [_ Hnd].
    apply Forall_cons in Hsafe as [_ Hsafe].
    rewrite IH by done. rewrite printf_default by done.
    simpl. rewrite Hc, Hout, <- app_assoc. simpl.
    unfold rollback_line at 2. destruct Hy as [g ->].
    by rewrite decide_False by done.
  - pose proof (db_Get_sound (ID m) w) as Hsound. rewrite Hg in Hsound.
    simpl in Hsound.
    apply db_Get_frame in Hg as (_ & Hc & _ & Hout & _).
    apply NoDup_cons in Hnd as [Hnotin Hnd].
    apply Forall_cons in Hsafe as [Hm Hsafe].
    apply runRollback_applied in Hr as [Hout2 Happ]; [|done].
    simpl in Happ. rewrite Hc in Happ.
    rewrite IH by done. rewrite Hout2, printf_default by done.
    rewrite Hout, <- app_assoc. simpl.
    unfold rollback_line at 2. destruct Hy as [g ->].
    rewrite decide_True by done.
    do 2 f_equal. apply list_fmap_ext. intros i m' Hm'.
    apply rollback_line_ext. rewrite Happ. split; [tauto|].
    intros ?. split; [done|]. intros Heq. destruct Hnotin. rewrite <- Heq.
    apply list_elem_of_fmap_2. by eapply list_elem_of_lookup_2.
Qed.

(** X22.  What [Migrate] prints.  With the default hook, when the call
    returns nil (ids distinct, apply actions leaving the tracker table
    alone), it has printed the line announcing the table check and then
    one line for each step, in the order of the registry: [Skipping
    migration] for a step that was applied before the call and [Running
    migration] for a step that was not. *)
Theorem Migrate_log (s : Sqlx) (w w1 : World U) :
  Printf s = None →
  NoDup (ID <$> Migrations s) →
  Forall (step_safe engine) (Migrations s) →
  Sqlx_Migrate engine s w = (w1, Val None) →
  out w1 = out w
             ++ ("Creating/checking migrations table..." +:+ nl)
             :: (migrate_line (committed w) <$> Migrations s).
Proof.
  intros HP Hnd Hsafe H1.
  apply Sqlx_Migrate_nil in H1 as (wc & Hc & Hloop).
  pose proof (createMigrationTable_out engine s s
                (printf s ("Creating/checking migrations table..." +:+ nl) w).1
                (out (printf s ("Creating/checking migrations table..." +:+ nl) w).1))
    as Ho.
  rewrite set_out_id, Hc in Ho. injection Ho as Ho.
  apply (f_equal out) in Ho. simpl in Ho.
  apply createMigrationTable_ok in Hc as (_ & _ & Hiffc & _).
  simpl in Hiffc.
  pose proof (migrateLoop_in_order engine s (Migrations s) wc) as Hrel.
  rewrite Hloop in Hrel.
  apply apply_in_order_log in Hrel; try done. simpl in Hrel.
  rewrite HP in Ho. unfold fmt_Printf in Ho.
  rewrite Hrel, Ho, <- app_assoc. simpl.
  do 2 f_equal. apply list_fmap_ext. intros i m _.
  by apply migrate_line_ext.
Qed.

(** X23.  What [Rollback] prints.  With the default hook, when the call
    returns nil (ids distinct, reverse actions leaving the tracker table
    alone), it has printed the line announcing the table check and then
    one line for each step, last step first: [Rollback not provided] for a
    step without a reverse action, [Running rollback] for a step that
    was applied before the call and [Skipping rollback] for one that was
    not. *)
Theorem Rollback_log (s : Sqlx) (w w1 : World U) :
  Printf s = None →
  NoDup (ID <$> Migrations s) →
  Forall (reverse_safe engine) (Migrations s) →
  Sqlx_Rollback engine s w = (w1, Val None) →
  out w1 = out w
             ++ ("Creating/checking migrations table..." +:+ nl)
             :: (rollback_line (committed w) <$> reverse (Migrations s)).
Proof.
  intros HP Hnd Hsafe H1.
  apply Sqlx_Rollback_nil in H1 as (wc & Hc & Hloop).
  pose proof (createMigrationTable_out engine s s
                (printf s ("Creating/checking migrations table..." +:+ nl) w).1
                (out (printf s ("Creating/checking migrations table..." +:+ nl) w).1))
    as Ho.
  rewrite set_out_id, Hc in Ho. injection Ho as Ho.
  apply (f_equal out) in Ho. simpl in Ho.
  apply createMigrationTable_ok in Hc as (_ & _ & Hiffc & _).
  simpl in Hiffc.
  pose proof (rollbackLoop_all_in_order engine s wc) as Hrel.
  rewrite Hloop in Hrel.
  apply rollback_in_order_log in Hrel; try done.
  2: { by rewrite fmap_reverse, reverse_Permutation. }
  2: { by apply Forall_reverse. }
  simpl in Hrel.
  rewrite HP in Ho. unfold fmt_Printf in Ho.
  rewrite Hrel, Ho, <- app_assoc. simpl.
  do 2 f_equal. apply list_fmap_ext. intros i m _.
  by apply rollback_line_ext.
Qed.
End Log.

(** ** The two variants side by side *)

Section Variants.
Context {U : Type} (engine : Engine U).
Implicit Types (w : World U) (v st : Store U) (g : TxFunc) (f : option TxFunc) (tx : Tx).

Lemma Old_migrateLoop_cons (s : Old.Sqlx) (m : Old.SqlxMigration) ms w :
  Old.migrateLoop engine s (m :: ms) w =
    let w1 := (db_Get selectSQL [Old.ID m] w).1 in
    match lookup_error selectSQL [Old.ID m] w with
    | Some ErrNoRows =>
        match Old.runMigration engine s m
                (Old.printf s ("Running migration: " +:+ Old.ID m +:+ nl) w1).1
        with
        | (w2, Val None) => Old.migrateLoop engine s ms w2
        | (w2, Val (Some err)) => (w2, Val (Some err))
        | (w2, Panic x) => (w2, Panic x)
        end
    | None =>
        Old.migrateLoop engine s ms
          (Old.printf s ("Skipping migration: " +:+ Old.ID m +:+ nl) w1).1
    | Some err => (w1, Val (Some (Errorf "looking up migration by id" err)))
    end.
Proof.
  simpl. unfold bind at 1. rewrite db_Get_result. simpl.
  destruct (lookup_error selectSQL [Old.ID m] w) as [[]|]; try done.
  unfold bind at 1.
  replace (Old.printf s ("Running migration: " +:+ Old.ID m +:+ nl) _)
    with ((Old.printf s ("Running migration: " +:+ Old.ID m +:+ nl)
             (mkWorld (committed w) (txs w) (tail (faults w))
                (trace w ++ [EvDbGet selectSQL [Old.ID m]]) (out w))).1,
          Val tt) by done.
  unfold bind.
  by destruct (Old.runMigration engine s m _) as [w2 [[|]|]].
Qed.

Lemma runMigration_same_state s m w w' :
  same_state w' w →
  agrees (Old.runMigration engine (as_old_sqlx s) (as_old m) w')
         (runMigration engine s m w).
Proof.
  intros (Hc & Hf & Ho).
  rewrite Old_runMigration_result, runMigration_result.
  unfold agrees, old_result, transaction_result.
  cbn [as_old Old.ID Old.Migrate].
  rewrite Hc, Hf, Ho.
  destruct (faults w) as [|[] fs0]; [|done|].
  all: destruct (stmt_effect engine insertSQL [ID m] _ (committed w))
         as [[c1 fs1] [e|]]; [done|].
  all: destruct (Migrate m) as [g|]; [|done].
  all: destruct (action_effect engine g fs1 c1) as [[[v2 fs2] stmts] [[e|]|x]];
    try done.
  all: by destruct fs2 as [|[] ?].
Qed.

Lemma lookup_error_same q args w w' :
  same_state w' w → lookup_error q args w' = lookup_error q args w.
Proof. intros (Hc & Hf & _). unfold lookup_error. by rewrite Hc, Hf. Qed.

Lemma migrateLoop_same_state s ms : ∀ w w',
  same_state w' w →
  agrees (Old.migrateLoop engine (as_old_sqlx s) (as_old <$> ms) w')
         (migrateLoop engine s ms w).
Proof.
  induction ms as [|m ms IH]; intros w w' Hs.
  { destruct Hs as (? & ? & ?). by split_and!. }
  rewrite fmap_cons, Old_migrateLoop_cons, migrateLoop_cons. cbv zeta.
  cbn [as_old Old.ID].
  rewrite (lookup_error_same _ _ w w') by done.
  rewrite !db_Get_result. cbn [fst].
  destruct Hs as (Hc & Hf & Ho).
  destruct (lookup_error selectSQL [ID m] w) as [[]|].
  all: try (split_and!; simpl; by rewrite ?Hc, ?Hf, ?Ho).
  - set (wo := (Old.printf _ _ _).1). set (wn := (printf _ _ _).1).
    assert (Hs1 : same_state wo wn).
    { subst wo wn. unfold Old.printf, printf, same_state; simpl.
      by rewrite Hc, Hf, Ho. }
    pose proof (runMigration_same_state s m wn wo Hs1) as (Hr & Hf2 & Ho2 & Hc2).
    destruct (runMigration engine s m wn) as [w2 r2].
    destruct (Old.runMigration engine _ _ wo) as [w2' r2'].
    simpl in *. subst r2'.
    destruct r2 as [[e|]|x]; try by split_and!.
    apply IH. split_and!; try done. by apply Hc2.
  - apply IH. unfold Old.printf, printf, same_state; simpl.
    by rewrite Hc, Hf, Ho.
Qed.

(** X24.  The earlier [Migrate] and the current one, on the same registry,
    database and fault script: they return the same result, print the
    same lines and consume the same connection failures, and when the
    result is nil they leave the same committed store. *)
Theorem Old_Migrate_agrees (s : Sqlx) (w : World U) :
  agrees (Old.Sqlx_Migrate engine (as_old_sqlx s) w)
         (Sqlx_Migrate engine s w).
Proof.
  rewrite Sqlx_Migrate_unfold.
  unfold Old.Sqlx_Migrate, bind.
  replace (Old.printf (as_old_sqlx s)
             ("Creating/checking migrations table..." +:+ nl) w)
    with ((printf s ("Creating/checking migrations table..." +:+ nl) w).1,
          Val tt) by done.
  replace (Old.createMigrationTable engine (as_old_sqlx s))
    with (createMigrationTable engine s) by done.
  destruct (createMigrationTable engine s _) as [wc [[e|]|x]];
    try by split_and!.
  apply migrateLoop_same_state. by split_and!.
Qed.
End Variants.

Section EarlierBuilders.
(** X25.  The earlier [SqlxFileMigration] against the current one called
    with no file for the reverse action.  For a file name that is not
    empty they open the same file and either panic with the same error or
    return steps with the same id and apply action.  For the empty name
    the current builder opens nothing and returns a step without apply
    action, whereas the earlier one still calls [os.Open] and, no file
    having the empty name, panics with its error. *)
Theorem Old_SqlxFileMigration_agrees (id filename : string) (fs : FS) :
  let '(fs1, r1) := SqlxFileMigration id filename "" fs in
  let '(fs2, r2) := OldFile.SqlxFileMigration id filename fs in
  if decide (filename = "")
  then
    fs1 = fs ∧ (∃ m, r1 = Val m ∧ Migrate m = None) ∧
    opened fs2 = opened fs ++ [""] ∧
    (files fs !! "" = None → r2 = Panic (PathError "open" ""))
  else
    fs2 = fs1 ∧
    r2 = match r1 with
         | Val m => Val (as_old m)
         | Panic v => Panic v
         end.
Proof.
  unfold SqlxFileMigration, OldFile.SqlxFileMigration, fileFn, os_Open.
  destruct (decide (filename = "")) as [->|Hn].
  all: destruct (decide ("" = "")) as [_|?]; [|done].
  - destruct (files fs !! "") as [[]|] eqn:E; simpl;
      split_and!; try done; by eexists.
  - by destruct (files fs !! filename) as [[]|].
Qed.
End EarlierBuilders.

(** ** The properties on the scenario *)

Section MoreChecks.
Import Scenario.

Ltac evaluate :=
  first [ vm_compute; reflexivity
        | vm_compute; discriminate
        | apply (bool_decide_unpack _); vm_compute; exact I ].

Lemma scenario_reverse_safe :
  Forall (reverse_safe engine) [courses; users].
Proof.
  repeat constructor; intros f Hf; vm_compute in Hf; try done.
  injection Hf as <-.
  constructor; [by apply engine_keeps_tracker | constructor].
Qed.

Lemma scenario_apply_no_crash :
  Forall (λ m, ∃ g, Migrate m = Some g ∧ no_crash g) [courses; users].
Proof.
  repeat constructor; eexists; (split; [evaluate|]); repeat constructor.
Qed.

Lemma scenario_reverse_no_crash :
  Forall (λ m, ∀ g, Rollback m = Some g → no_crash g) [courses; users].
Proof.
  repeat constructor; intros g Hg; vm_compute in Hg; try done.
  injection Hg as <-. repeat constructor.
Qed.

Lemma Migrate_returns_witness :
  ∃ e, (Sqlx_Migrate engine (registry [courses; users]) (fresh [true])).2
       = Val e.
Proof.
  apply (Migrate_returns_when_actions_do engine (registry [courses; users])).
  exact scenario_apply_no_crash.
Defined.

Lemma Rollback_returns_witness :
  ∃ e, (Sqlx_Rollback engine (registry [courses; users]) (fresh [])).2
       = Val e.
Proof.
  apply (Rollback_returns_when_actions_do engine (registry [courses; users])).
  exact scenario_reverse_no_crash.
Defined.

Lemma runMigration_nil_action_witness :
  let m := SqlxQueryMigration "004_only_down" "" dropUsers in
  let '(w', r) := runMigration engine (registry [m]) m (ready []) in
  r = Panic nilDeref ∧
  committed w' = committed (ready []) ∧
  view (length (txs (ready []))) w' =
    Some (mkStore (Some ({[ID m]} ∪ ∅)) (schema (committed (ready [])))).
Proof.
  intros m.
  apply (runMigration_nil_action_panics engine (registry [m]) m (ready []) ∅).
  - evaluate.
  - vm_compute. set_solver.
  - evaluate.
  - set_solver.
Defined.

Lemma runMigration_query_step_witness :
  let '(w', r) :=
    runMigration engine (registry [courses])
      (SqlxQueryMigration "001_create_courses" createCourses dropCourses)
      (ready []) in
  match exec engine insertSQL ["001_create_courses"] (committed (ready [])) with
  | inr e =>
      r = Val (Some (Errorf "running migration" e)) ∧
      committed w' = committed (ready [])
  | inl v1 =>
      match exec engine createCourses [] v1 with
      | inl v2 => r = Val None ∧ committed w' = v2
      | inr e =>
          r = Val (Some (Errorf "running migration" e)) ∧
          committed w' = committed (ready [])
      end
  end.
Proof.
  apply (runMigration_query_step engine (registry [courses])
           "001_create_courses" createCourses dropCourses (ready []));
    evaluate.
Defined.

Lemma runMigration_duplicate_id_witness :
  let w := (Sqlx_Migrate engine (registry [courses]) (fresh [])).1 in
  let '(w', r) := runMigration engine (registry [courses]) courses w in
  r = Val (Some (Errorf "running migration"
                   (DriverError "UNIQUE constraint failed: migrations.id"))) ∧
  committed w' = committed w ∧
  applies (since w w') = [].
Proof.
  intros w.
  apply (runMigration_duplicate_id engine (registry [courses]) courses w).
  - vm_compute. set_solver.
  - evaluate.
Defined.

Lemma Migrate_applies_pending_witness :
  let s := registry [courses; users] in
  let w := (Sqlx_Migrate engine (registry [courses]) (fresh [])).1 in
  let w1 := (Sqlx_Migrate engine s w).1 in
  applies (since w w1) = ID <$> pending (committed w) (Migrations s) ∧
  (∀ id, applied (committed w1) id ↔
         applied (committed w) id ∨ id ∈ ID <$> Migrations s).
Proof.
  intros s w w1.
  apply (Migrate_applies_pending engine s w w1).
  - evaluate.
  - exact scenario_steps_safe.
  - evaluate.
Defined.

Lemma Migrate_incremental_witness :
  let w := fresh [] in
  let w1 := (Sqlx_Migrate engine (registry [courses]) w).1 in
  let w2 := (Sqlx_Migrate engine (registry ([courses] ++ [users])) w1).1 in
  applies (since w1 w2) = ID <$> pending (committed w) [users] ∧
  (∀ m, m ∈ [courses] ++ [users] → applied (committed w2) (ID m)).
Proof.
  intros w w1 w2.
  apply (Migrate_incremental engine None [courses] [users] w w1 w2).
  - evaluate.
  - exact scenario_steps_safe.
  - evaluate.
  - evaluate.
Defined.

Lemma Rollback_reverses_witness :
  let s := registry [courses; users] in
  let w := (Sqlx_Migrate engine s (fresh [])).1 in
  let w1 := (Sqlx_Rollback engine s w).1 in
  reverses (since w w1)
    = ID <$> reversible (committed w) (reverse (Migrations s)) ∧
  (∀ id, applied (committed w1) id ↔
         applied (committed w) id ∧
         id ∉ ID <$> filter has_reverse (Migrations s)).
Proof.
  intros s w w1.
  apply (Rollback_reverses_applied_steps engine s w w1).
  - evaluate.
  - exact scenario_reverse_safe.
  - evaluate.
Defined.

Lemma Rollback_idempotent_witness :
  let s := registry [courses; users] in
  let w := (Sqlx_Migrate engine s (fresh [])).1 in
  let w1 := (Sqlx_Rollback engine s w).1 in
  let '(w2, r) := Sqlx_Rollback engine s w1 in
  r = Val None ∧
  committed w2 = committed w1 ∧
  since w1 w2 =
    EvDbExec createTableSQL []
      :: ((λ m, EvDbGet selectSQL [ID m]) <$>
          filter has_reverse (reverse (Migrations s))).
Proof.
  intros s w w1.
  apply (Rollback_idempotent engine s w w1).
  - evaluate.
  - exact scenario_reverse_safe.
  - evaluate.
  - evaluate.
Defined.

Lemma Rollback_without_reverse_witness :
  let s := registry [users; broken] in
  let w := (Sqlx_Migrate engine (registry [users]) (fresh [])).1 in
  let '(w', r) := Sqlx_Rollback engine s w in
  since w w' = [EvDbExec createTableSQL []] ∧
  (∀ id, applied (committed w') id ↔ applied (committed w) id) ∧
  schema (committed w') = schema (committed w) ∧
  (r = Val None ∨
   r = Val (Some (Errorf "creating migrations table" badConn))).
Proof.
  intros s w.
  apply (Rollback_without_reverse_actions engine s w).
  repeat constructor.
Defined.

Lemma Migrate_Rollback_Migrate_witness :
  let s := registry [courses; users] in
  let w := fresh [] in
  let w1 := (Sqlx_Migrate engine s w).1 in
  let w2 := (Sqlx_Rollback engine s w1).1 in
  let w3 := (Sqlx_Migrate engine s w2).1 in
  reverses (since w1 w2) = ID <$> filter has_reverse (reverse (Migrations s)) ∧
  applies (since w2 w3) = ID <$> filter has_reverse (Migrations s) ∧
  (∀ id, applied (committed w3) id ↔ applied (committed w1) id).
Proof.
  intros s w w1 w2 w3.
  apply (Migrate_Rollback_Migrate engine s w w1 w2 w3).
  - evaluate.
  - exact scenario_steps_safe.
  - exact scenario_reverse_safe.
  - evaluate.
  - evaluate.
  - evaluate.
Defined.

Lemma Old_runMigration_keeps_row_witness :
  let s := as_old_sqlx (registry [broken]) in
  let c1 := mkStore (Some {[ID broken]}) (schema (committed (ready []))) in
  let '(w', r) := Old.runMigration engine s (as_old broken) (ready []) in
  applied c1 (Old.ID (as_old broken)) ∧
  match r with
  | Val None => True
  | _ => committed w' = c1
  end.
Proof.
  intros s c1.
  apply (Old_runMigration_keeps_row engine s (as_old broken) (ready []) c1);
    evaluate.
Defined.

Lemma SqlxFileMigration_as_query_witness :
  (SqlxFileMigration "001_create_courses"
     "migrations/001.up.sql" "migrations/001.down.sql" disk2).2
  = Val (SqlxQueryMigration "001_create_courses" createCourses dropCourses).
Proof.
  apply (SqlxFileMigration_as_query "001_create_courses"
           "migrations/001.up.sql" "migrations/001.down.sql"
           createCourses dropCourses disk2); evaluate.
Defined.

Lemma SqlxFileMigration_empty_file_witness :
  (SqlxFileMigration "005_empty" "migrations/empty.sql" "" disk2).2
  = Val {| ID := "005_empty"; Migrate := Some (Exec "" [] Ret);
           Rollback := None |} ∧
  Migrate (SqlxQueryMigration "005_empty" "" "") = None.
Proof.
  apply (SqlxFileMigration_empty_file "005_empty" "migrations/empty.sql"
           disk2); evaluate.
Defined.

Lemma Migrate_log_witness :
  let s := registry [courses; users] in
  let w := (Sqlx_Migrate engine (registry [courses]) (fresh [])).1 in
  let w1 := (Sqlx_Migrate engine s w).1 in
  out w1 = out w
             ++ ("Creating/checking migrations table..." +:+ nl)
             :: (migrate_line (committed w) <$> Migrations s).
Proof.
  intros s w w1.
  apply (Migrate_log engine s w w1).
  - reflexivity.
  - evaluate.
  - exact scenario_steps_safe.
  - evaluate.
Defined.

Lemma Rollback_log_witness :
  let s := registry [courses; users] in
  let w := (Sqlx_Migrate engine (registry [courses]) (fresh [])).1 in
  let w1 := (Sqlx_Rollback engine s w).1 in
  out w1 = out w
             ++ ("Creating/checking migrations table..." +:+ nl)
             :: (rollback_line (committed w) <$> reverse (Migrations s)).
Proof.
  intros s w w1.
  apply (Rollback_log engine s w w1).
  - reflexivity.
  - evaluate.
  - exact scenario_reverse_safe.
  - evaluate.
Defined.
End MoreChecks.
